(** * log-analyzer: a shallow embedding of the two Go programs

    [log_analyzer_1h.go] (the analyzer) filters a log file to the last hour,
    cuts the kept lines into chunks, sends every chunk to a chat-completion
    service and writes a report.  The second program (the enhancer) reads that
    report, asks the service for a condensed version and writes it back with a
    recommendations section.

    Go values are modelled as follows.
    - [int] is [Z].  Every integer of the two programs is a length, an index
      below a length plus 30, or a quotient of such numbers, so no 64-bit
      wrap-around can occur; the one place where the width matters (the
      conversion of an [int] to [float64]) takes the bound as a hypothesis.
    - [string] and [[]byte] are [string] (a list of 8-bit characters), so
      [String.length] is Go's [len].
    - [float64] is binary64 as specified by the Standard Library's
      [SpecFloat] (precision 53, emax 1024, round to nearest even).
    - a decoded JSON document ([map[string]interface{}]) is a [gmap] from
      strings to [json] values.
    - runtime panics are a result of their own ([Panic]); a run of the
      analyzer is the state it reached (what was sent, what was written to
      the output file) together with the way it ended.
    - the network, the clock and the Go library functions [time.Parse] and
      [strings.ToUpper] are parameters. *)

From Stdlib Require Import ZArith Lia List String Ascii SpecFloat DecimalString.
From stdpp Require Import base list strings gmap.

Local Open Scope string_scope.
Local Open Scope Z_scope.

(** ** float64 *)

Module Float64.

Definition prec : Z := 53.
Definition emax : Z := 1024.

(** [float64(n)] for an [int] n. *)
Definition of_int (n : Z) : spec_float := binary_normalize prec emax n 0 false.

Definition div : spec_float -> spec_float -> spec_float := SFdiv prec emax.
Definition mul : spec_float -> spec_float -> spec_float := SFmul prec emax.

Definition min_int64 : Z := - 2 ^ 63.

(** [int(f)]: the fraction is discarded (truncation towards zero).  For a
    NaN, an infinity or a value outside of int64 the Go specification
    leaves the result to the implementation; amd64 yields the smallest
    int64, which is what is written here. *)
Definition to_int (f : spec_float) : Z :=
  match f with
  | S754_zero _ => 0
  | S754_finite s m e =>
      let a := match e with
               | Z0 => Zpos m
               | Zpos _ => Zpos m * 2 ^ e
               | Zneg p => Zpos m / 2 ^ Zpos p
               end in
      let v := if s then - a else a in
      if (min_int64 <=? v) && (v <? 2 ^ 63) then v else min_int64
  | _ => min_int64
  end.

End Float64.

(** ** Results of a computation that may panic

    [Panic] is a Go runtime panic, [Fatal] is [log.Fatalf] (the process exits
    with status 1), [OutOfFuel] belongs to the model only: the loops below
    are written with a fuel argument and are shown never to exhaust it. *)

Inductive outcome (A : Type) : Type :=
  | Ok (a : A)
  | Panic (msg : string)
  | Fatal (msg : string)
  | OutOfFuel.
Arguments Ok {A} a.
Arguments Panic {A} msg.
Arguments Fatal {A} msg.
Arguments OutOfFuel {A}.

#[global] Instance outcome_ret : MRet outcome := fun A a => Ok a.

#[global] Instance outcome_bind : MBind outcome := fun A B k m =>
  match m with
  | Ok a => k a
  | Panic msg => Panic msg
  | Fatal msg => Fatal msg
  | OutOfFuel => OutOfFuel
  end.

(** Integer division: truncated, and a runtime panic on a zero divisor. *)
Definition int_div (a b : Z) : outcome Z :=
  if b =? 0 then Panic "runtime error: integer divide by zero" else Ok (Z.quot a b).

(** The slice expression [s[lo:hi]]; out of range is a runtime panic. *)
Definition slice {A : Type} (s : list A) (lo hi : Z) : outcome (list A) :=
  if (0 <=? lo) && (lo <=? hi) && (hi <=? Z.of_nat (length s))
  then Ok (take (Z.to_nat hi - Z.to_nat lo)%nat (drop (Z.to_nat lo) s))
  else Panic "runtime error: slice bounds out of range".

(** [s[:n]] and [s[n:]] on strings, for n within the length. *)
Fixpoint string_take (n : nat) (s : string) : string :=
  match n, s with
  | S n', String c r => String c (string_take n' r)
  | _, _ => EmptyString
  end.

Fixpoint string_drop (n : nat) (s : string) : string :=
  match n, s with
  | S n', String _ r => string_drop n' r
  | _, _ => s
  end.

(** [len(s)] of a string and of a slice. *)
Definition len (s : string) : Z := Z.of_nat (String.length s).
Definition llen {A : Type} (s : list A) : Z := Z.of_nat (length s).

(** [fmt.Sprintf("%d", n)]. *)
Definition show_int (n : Z) : string := NilZero.string_of_int (Z.to_int n).

Definition newline : ascii := ascii_of_nat 10.
Definition nl : string := String newline EmptyString.

(** [bytes.Split(s, sep)] for a separator of one byte: the pieces between
    the separators, so n separators give n + 1 pieces. *)
Fixpoint Split (s : string) (sep : ascii) : list string :=
  match s with
  | EmptyString => [EmptyString]
  | String c r =>
      if Ascii.eqb c sep then EmptyString :: Split r sep
      else match Split r sep with
           | piece :: pieces => String c piece :: pieces
           | [] => [String c EmptyString]
           end
  end.

(** [strings.Contains(s, substr)]. *)
Fixpoint Contains (s substr : string) : bool :=
  String.prefix substr s ||
  match s with
  | EmptyString => false
  | String _ r => Contains r substr
  end.

(** [strings.Join(elems, sep)]. *)
Definition Join (elems : list string) (sep : string) : string := String.concat sep elems.

(** What a [strings.Builder] holds after the pieces are written in order. *)
Definition written_in_order (pieces : list string) : string :=
  fold_right String.append EmptyString pieces.

(** The accumulated size of a list of texts. *)
Definition totalLen (texts : list string) : Z :=
  fold_right (fun text total => len text + total) 0 texts.

(** ** Constants of the analyzer *)

Definition maxTokensPerChunk : Z := 1500.
Definition maxCharsPerSummary : Z := 20000.

Definition estimateTokens (text : string) : Z := Z.quot (len text) 4.

(** ** Decoded JSON

    [json.Unmarshal] into a [map[string]interface{}] stores objects as maps,
    arrays as slices, strings as strings and numbers as float64. *)

#[local] Unset Elimination Schemes.
Inductive json : Type :=
  | JNull
  | JBool (b : bool)
  | JNumber (f : spec_float)
  | JString (s : string)
  | JArray (l : list json)
  | JObject (m : gmap string json).
#[local] Set Elimination Schemes.

(** The type assertions [v.(map[string]interface{})], [v.(string)] and
    [v.([]interface{})] in their two-result form; a missing key gives the nil
    interface, on which every assertion fails. *)
Definition asObject (v : option json) : option (gmap string json) :=
  match v with Some (JObject m) => Some m | _ => None end.

Definition asString (v : option json) : option string :=
  match v with Some (JString s) => Some s | _ => None end.

Definition asArray (v : option json) : option (list json) :=
  match v with Some (JArray l) => Some l | _ => None end.

(** What one request to the completion endpoint comes back with. *)
Inductive reply : Type :=
  | SendFailed (err : string)    (* http.Post failed *)
  | ReadFailed (err : string)    (* io.ReadAll failed *)
  | ParseFailed (err : string)   (* json.Unmarshal failed *)
  | Decoded (result : gmap string json).

(** [choices[0].message.content] when every level has the expected shape. *)
Definition firstContent (result : gmap string json) : option string :=
  match asArray (result !! "choices") with
  | Some (choices0 :: _) =>
      match asObject (Some choices0) with
      | Some choice =>
          match asObject (choice !! "message") with
          | Some message => asString (message !! "content")
          | None => None
          end
      | None => None
      end
  | _ => None
  end.

(** The [error] field of a response, as the message both programs report. *)
Definition serviceError (result : gmap string json) : option string :=
  match asObject (result !! "error") with
  | Some errorObj =>
      Some match asString (errorObj !! "message") with
           | Some msg => msg
           | None => "Unknown error"
           end
  | None => asString (result !! "error")
  end.

(** ** The analyzer: one chunk *)

(** The [analysis] variable of [processLogChunk] (lines 201-210). *)
Definition extractAnalysis (result : gmap string json) (chunkLabel : string) : string :=
  match firstContent result with
  | Some content => content
  | None => "No analysis received for " +:+ chunkLabel +:+ "."
  end.

(** [processLogChunk] from the decoded response on (lines 189-212); the
    boolean is [isError]. *)
Definition parseResponse (result : gmap string json) (chunkLabel : string) : string * bool :=
  match serviceError result with
  | Some errorMsg => ("Error from AI service: " +:+ errorMsg, true)
  | None =>
      ("=== " +:+ chunkLabel +:+ " ===" +:+ nl +:+ nl +:+ extractAnalysis result chunkLabel,
       false)
  end.

Definition processReply (r : reply) (chunkLabel : string) : string * bool :=
  match r with
  | SendFailed err => ("Failed to send request: " +:+ err, true)
  | ReadFailed err => ("Failed to read response: " +:+ err, true)
  | ParseFailed err => ("Failed to parse response: " +:+ err, true)
  | Decoded result => parseResponse result chunkLabel
  end.

(** ** The analyzer: reports *)

Definition separator : string := nl +:+ nl +:+ "---" +:+ nl +:+ nl.

(** The text [saveProgress] writes to the output file. *)
Definition saveProgress (analyses errors : list string) : string :=
  (if 0 <? llen analyses
   then "## SUCCESSFUL ANALYSES" +:+ nl +:+ nl +:+
        written_in_order (map (fun analysis => analysis +:+ separator) analyses)
   else "") +:+
  (if 0 <? llen errors
   then nl +:+ nl +:+ "## ERRORS" +:+ nl +:+ nl +:+
        written_in_order (map (fun err => err +:+ nl +:+ nl) errors)
   else "").

Definition truncationNote (omitted : Z) (what : string) : string :=
  nl +:+ nl +:+ "*Note: " +:+ show_int omitted +:+ " additional " +:+ what +:+
  " were truncated due to size limits.*" +:+ nl.

(** The two bounded loops of [compileFinalSummary]: [items] is what is left
    of the slice from index [i] on, [n] its whole length; the result is the
    text written and the final [totalChars]. *)
Fixpoint boundedAppend (ceiling : Z) (what after : string) (n i : Z)
    (items : list string) (totalChars : Z) : string * Z :=
  match items with
  | [] => (EmptyString, totalChars)
  | item :: rest =>
      if totalChars + len item >? ceiling
      then (truncationNote (n - i) what, totalChars)
      else let '(text, total) :=
             boundedAppend ceiling what after n (i + 1) rest (totalChars + len item) in
           (item +:+ after +:+ text, total)
  end.

(** The parts of [compileFinalSummary]; [now] is
    [time.Now().Format(time.RFC1123)]. *)
Definition reportHeader (now : string) (analyses errors : list string) : string :=
  "# LOG ANALYSIS SUMMARY" +:+ nl +:+
  "Generated on " +:+ now +:+ nl +:+ nl +:+
  "Processed " +:+ show_int (llen analyses) +:+ " chunks of logs from the last hour." +:+ nl +:+
  (if 0 <? llen errors
   then "Encountered " +:+ show_int (llen errors) +:+ " errors during processing." +:+ nl
   else "") +:+
  nl +:+ "---" +:+ nl +:+ nl.

Definition errorSection (ceiling : Z) (errors : list string) (totalChars : Z) : string :=
  if 0 <? llen errors
  then nl +:+ nl +:+ "## ERRORS" +:+ nl +:+ nl +:+
       fst (boundedAppend ceiling "errors" (nl +:+ nl) (llen errors) 0 errors totalChars)
  else "".

(** [compileFinalSummary] with the ceiling as an argument. *)
Definition compileFinalSummaryWith (ceiling : Z) (now : string)
    (analyses errors : list string) : string :=
  let findings :=
    boundedAppend ceiling "analyses" separator (llen analyses) 0 analyses 0 in
  reportHeader now analyses errors +:+
  "## DETAILED FINDINGS" +:+ nl +:+ nl +:+
  fst findings +:+
  errorSection ceiling errors (snd findings).

Definition compileFinalSummary : string -> list string -> list string -> string :=
  compileFinalSummaryWith maxCharsPerSummary.

(** ** The analyzer: filter, chunker and main loop *)

(** What a run has done so far.  [emitted] lists the [chunkLines] of every
    call of [processLogChunk], [written] the successive contents of the
    output file (every write replaces the file as a whole; a write that
    fails is only logged by the program, and writes are taken to succeed
    here). *)
Record run : Type := {
  successfulAnalyses : list string;
  errorMessages : list string;
  emitted : list (list string);
  written : list string
}.

Definition start : run :=
  {| successfulAnalyses := []; errorMessages := []; emitted := []; written := [] |}.

(** How far a run got and how it ended: [Ok tt] is a regular end. *)
Definition ending : Type := run * outcome unit.

(** A step that may panic inside a run: the run stops in the state it is in. *)
Definition guarded {A : Type} (st : run) (step : outcome A) (k : A -> ending) : ending :=
  match step with
  | Ok a => k a
  | Panic msg => (st, Panic msg)
  | Fatal msg => (st, Fatal msg)
  | OutOfFuel => (st, OutOfFuel)
  end.

(** One hour in nanoseconds; instants are nanoseconds since the epoch. *)
Definition hour : Z := 3600 * 1000000000.

(** Lines 92-93: [int(float64(end-i) * reductionFactor)] for a window of
    [size] lines estimated at [estimated] tokens. *)
Definition reducedSize (size estimated : Z) : Z :=
  let reductionFactor :=
    Float64.div (Float64.of_int maxTokensPerChunk) (Float64.of_int estimated) in
  Float64.to_int (Float64.mul (Float64.of_int size) reductionFactor).

(** Lines 93-99: [newEnd], with [total = len(filteredLogLines)]. *)
Definition newEndOf (total i end_ estimated : Z) : Z :=
  let newEnd := i + reducedSize (end_ - i) estimated in
  let newEnd := if newEnd <=? i then i + 1 else newEnd in
  if newEnd >? total then total else newEnd.

Section Analyzer.

(** [time.Parse(time.RFC3339, s)]: the instant, or [None] for an error. *)
Variable parseRFC3339 : string -> option Z.
(** The completion endpoint: what the k-th request, sent for the given
    chunk text, comes back with. *)
Variable service : nat -> string -> reply.
(** [time.Now().Format(time.RFC1123)] when the final report is compiled. *)
Variable now : string.

(** The condition of lines 49-54 on one line. *)
Definition keepLine (startTime endTime : Z) (line : string) : bool :=
  if 0 <? len line then
    if 25 <=? len line then
      match parseRFC3339 (string_take 25 line) with
      | Some logTime => (startTime <? logTime) && (logTime <? endTime)
      | None => false
      end
    else false
  else false.

(** Lines 46-59. *)
Definition filterLogLines (startTime endTime : Z) (logData : string) : list string :=
  fold_left
    (fun filteredLogLines line =>
       if keepLine startTime endTime line
       then (filteredLogLines ++ [line])%list
       else filteredLogLines)
    (Split logData newline) [].

Definition processLogChunk (call : nat) (logText chunkLabel : string) : string * bool :=
  processReply (service call logText) chunkLabel.

(** Lines 80-107: the [chunkLines] handed to [processLogChunk] for the
    window that starts at index [i]. *)
Definition chunkAt (filteredLogLines : list string) (linesPerChunk i : Z)
    : outcome (list string) :=
  let end_ := i + linesPerChunk in
  let end_ := if end_ >? llen filteredLogLines then llen filteredLogLines else end_ in
  chunkLines ← slice filteredLogLines i end_;
  let chunkText := Join chunkLines nl in
  let estimatedChunkTokens := estimateTokens chunkText in
  if estimatedChunkTokens >? maxTokensPerChunk
  then slice filteredLogLines i
         (newEndOf (llen filteredLogLines) i end_ estimatedChunkTokens)
  else Ok chunkLines.

(** Lines 112-126: the chunk is sent, its result is recorded and the
    progress is saved. *)
Definition afterChunk (st : run) (chunkLines : list string) (chunkLabel : string) : run :=
  let chunkText := Join chunkLines nl in
  let result := processLogChunk (length (emitted st)) chunkText chunkLabel in
  let analysis := fst result in
  let isError := snd result in
  let errors :=
    if isError then (errorMessages st ++ [analysis])%list else errorMessages st in
  let analyses :=
    if isError then successfulAnalyses st else (successfulAnalyses st ++ [analysis])%list in
  {| successfulAnalyses := analyses;
     errorMessages := errors;
     emitted := (emitted st ++ [chunkLines])%list;
     written := (written st ++ [saveProgress analyses errors])%list |}.

(** The loop of lines 79-127, from index [i] on. *)
Fixpoint processChunks (fuel : nat) (filteredLogLines : list string)
    (linesPerChunk chunkCount i : Z) (st : run) : ending :=
  match fuel with
  | O => (st, OutOfFuel)
  | S fuel' =>
      if i <? llen filteredLogLines then
        guarded st (chunkAt filteredLogLines linesPerChunk i) (fun chunkLines =>
        guarded st (int_div i linesPerChunk) (fun number =>
        let chunkLabel := "Part " +:+ show_int (number + 1) +:+ "/" +:+ show_int chunkCount in
        processChunks fuel' filteredLogLines linesPerChunk chunkCount (i + linesPerChunk)
          (afterChunk st chunkLines chunkLabel)))
      else (st, Ok tt)
  end.

(** Lines 65-69. *)
Definition linesPerChunkOf (filteredLogLines : list string) : Z :=
  let linesPerChunk := 30 in
  if llen filteredLogLines <=? linesPerChunk then llen filteredLogLines else linesPerChunk.

(** Line 78. *)
Definition chunkCountOf (filteredLogLines : list string) : outcome Z :=
  let linesPerChunk := linesPerChunkOf filteredLogLines in
  int_div (llen filteredLogLines + linesPerChunk - 1) linesPerChunk.

(** Lines 63-127: the run up to the end of the loop. *)
Definition runChunks (filteredLogLines : list string) : ending :=
  let linesPerChunk := linesPerChunkOf filteredLogLines in
  guarded start (chunkCountOf filteredLogLines) (fun chunkCount =>
  processChunks (S (length filteredLogLines)) filteredLogLines
    linesPerChunk chunkCount 0 start).

(** Lines 131-135: the final report replaces the last checkpoint. *)
Definition finish (st : run) : run :=
  if 0 <? llen (successfulAnalyses st)
  then {| successfulAnalyses := successfulAnalyses st;
          errorMessages := errorMessages st;
          emitted := emitted st;
          written := (written st ++
            [compileFinalSummary now (successfulAnalyses st) (errorMessages st)])%list |}
  else st.

(** [main] from line 63 on, for the lines the filter kept. *)
Definition analyze (filteredLogLines : list string) : ending :=
  match runChunks filteredLogLines with
  | (st, Ok _) => (finish st, Ok tt)
  | stopped => stopped
  end.

(** [main]: [endTime] is [time.Now()], [logFile] what [os.ReadFile] gives
    ([None] for an error). *)
Definition main (endTime : Z) (logFile : option string) : ending :=
  let startTime := endTime - hour in
  match logFile with
  | None => (start, Fatal "Failed to read log file")
  | Some logData => analyze (filterLogLines startTime endTime logData)
  end.

(** The chunks of a run that comes to a regular end. *)
Definition chunksOf (filteredLogLines : list string) : option (list (list string)) :=
  match analyze filteredLogLines with
  | (st, Ok _) => Some (emitted st)
  | _ => None
  end.

End Analyzer.

(** ** The enhancer *)

(** The loop of lines 39-44: [budget] is [1000 - i]. *)
Fixpoint dropFirstLine (budget i : nat) (summaryData : string) : string :=
  match budget with
  | O => summaryData
  | S budget' =>
      match String.get i summaryData with
      | None => summaryData
      | Some c =>
          if Ascii.eqb c newline
          then string_drop (i + 1) summaryData
          else dropFirstLine budget' (i + 1) summaryData
      end
  end.

(** Lines 33-46. *)
Definition truncateSummary (summaryData : string) : string :=
  if len summaryData >? 100000 then
    let summaryData := string_drop (Z.to_nat (len summaryData - 100000)) summaryData in
    dropFirstLine 1000 0 summaryData
  else summaryData.

Definition fallbackSection : string :=
  nl +:+ nl +:+ "## RECOMMENDATIONS" +:+ nl +:+ nl +:+
  "The AI did not provide specific recommendations. Please review the summary to determine appropriate actions." +:+ nl.

Section Enhancer.

(** [strings.ToUpper]. *)
Variable ToUpper : string -> string.
(** The completion endpoint, for the one request of the enhancer. *)
Variable service : string -> reply.
(** [time.Now().Format(time.RFC1123)]. *)
Variable now : string.

Definition enhancedHeader : string :=
  "# ENHANCED LOG SUMMARY WITH RECOMMENDATIONS" +:+ nl +:+
  "Generated on " +:+ now +:+ nl +:+ nl.

(** Lines 134-146. *)
Definition formatEnhanced (enhancedSummary : string) : string :=
  enhancedHeader +:+ enhancedSummary +:+
  (if negb (Contains (ToUpper enhancedSummary) "RECOMMENDATION")
   then fallbackSection
   else "").

(** The result is [inl] of the text, or [inr] of the error. *)
Definition enhanceSummaryWithRecommendations (summaryText : string) : string + string :=
  match service summaryText with
  | SendFailed err => inr ("failed to send request: " +:+ err)
  | ReadFailed err => inr ("failed to read response: " +:+ err)
  | ParseFailed err => inr ("failed to parse response: " +:+ err)
  | Decoded result =>
      match serviceError result with
      | Some errorMsg => inr ("error from AI service: " +:+ errorMsg)
      | None =>
          inl (formatEnhanced
                 match firstContent result with
                 | Some content => content
                 | None => "No summary generated."
                 end)
      end
  end.


End Enhancer.

(** ** Predicates and inputs used in the statements below *)

(** What the loop guarantees when it is left. *)
Definition loopPost (lines : list string) (i : Z) (st st' : run) : Prop :=
  (llen lines <= i -> st' = st) /\
  (i < llen lines ->
     last (written st') = Some (saveProgress (successfulAnalyses st') (errorMessages st'))) /\
  (exists chunks, emitted st' = (emitted st ++ chunks)%list /\
                  Forall (fun chunkLines => chunkLines <> []) chunks) /\
  (length (written st') + length (emitted st) = length (written st) + length (emitted st'))%nat.

(** The estimates above 1500 that divide 30 * 1500: there the quotient is an
    integer and the rounded product has to be evaluated. *)
Definition exactQuotients : list Z :=
  [45000; 22500; 15000; 11250; 9000; 7500; 5625; 5000; 4500; 3750; 3000; 2500;
   2250; 1875; 1800].

(** The two pairs of a window size (up to 30 lines) and an estimate for
    which the float64 product of the shrink step falls just below the
    integer 15 that n * 1500 / estimate is. *)
Definition roundedDown (n estimated : Z) : bool :=
  ((n =? 22) && (estimated =? 2200)) || ((n =? 26) && (estimated =? 2600)).

(** The window the loop looks at for index [i] (lines 80-85), the number
    of lines of the chunk it sends for that window, and whether the shrink
    step takes lines away from it. *)
Definition windowAt (lines : list string) (linesPerChunk i : Z) : list string :=
  take (Z.to_nat linesPerChunk) (drop (Z.to_nat i) lines).

Definition chunkSizeAt (lines : list string) (linesPerChunk i : Z) : Z :=
  let window := windowAt lines linesPerChunk i in
  let estimated := estimateTokens (Join window nl) in
  if estimated >? maxTokensPerChunk
  then Z.max 1 (llen window * maxTokensPerChunk / estimated
                - (if roundedDown (llen window) estimated then 1 else 0))
  else llen window.

Definition shrinksAt (lines : list string) (linesPerChunk i : Z) : bool :=
  let window := windowAt lines linesPerChunk i in
  (estimateTokens (Join window nl) >? maxTokensPerChunk) && (2 <=? llen window).

(** The chunk of the j-th window, counted from 0. *)
Definition expectedChunk (lines : list string) (linesPerChunk j : Z) : list string :=
  take (Z.to_nat (chunkSizeAt lines linesPerChunk (j * linesPerChunk)))
    (drop (Z.to_nat (j * linesPerChunk)) lines).

(** [strings.ToUpper] on a string of ASCII bytes (Go maps such a string
    byte by byte), for the concrete replies below. *)
Definition upperByte (c : ascii) : ascii :=
  let n := nat_of_ascii c in
  if (97 <=? n)%nat && (n <=? 122)%nat then ascii_of_nat (n - 32) else c.

Fixpoint asciiToUpper (s : string) : string :=
  match s with
  | EmptyString => EmptyString
  | String c r => String (upperByte c) (asciiToUpper r)
  end.

(** A string of [n] copies of one character, for concrete inputs. *)
Definition rep (n : nat) (c : ascii) : string := string_of_list_ascii (repeat c n).

(** A report of 100006 bytes whose last 100000 bytes start inside a line. *)
Definition longReport : string :=
  rep 13 "a" +:+ nl +:+ rep (Z.to_nat 99992) "b".

(** A line of 6004 bytes: its estimate is 1501 tokens. *)
Definition longLine : string := rep (Z.to_nat 6004) "x".

(** A line of 6001 bytes: its estimate is 1500 tokens. *)
Definition almostLongLine : string := rep (Z.to_nat 6001) "x".

(** Two lines of 4000 bytes each: one window of 8001 bytes, estimated at
    2000 tokens. *)
Definition twoLongLines : list string :=
  [rep (Z.to_nat 4000) "a"; rep (Z.to_nat 4000) "b"].

(** Thirty lines of 300 bytes: one window of 9029 bytes, estimated at 2257
    tokens. *)
Definition thirtyLongLines : list string := repeat (rep 300 "a") 30.

(** The numbers of the windows of a run, counted from 0, and whether the
    shrink step takes lines away from one of them. *)
Definition windowNumbers (lines : list string) : list Z :=
  seqZ 0 ((llen lines + linesPerChunkOf lines - 1) / linesPerChunkOf lines).

Definition anyShrink (lines : list string) : bool :=
  existsb (fun j => shrinksAt lines (linesPerChunkOf lines) (j * linesPerChunkOf lines))
    (windowNumbers lines).

(** Twenty-two lines that join to 8800 bytes, estimated at 2200 tokens. *)
Definition roundedLines : list string :=
  (repeat (rep 399 "a") 21 ++ [rep 400 "a"])%list.

(** * Properties *)

(** ** Strings *)

Lemma app_cons_s (x : ascii) (a b : string) : String x a +:+ b = String x (a +:+ b).
Proof. reflexivity. Qed.

Lemma app_nil_l_s (b : string) : "" +:+ b = b.
Proof. reflexivity. Qed.

Lemma app_assoc_s (a b c : string) : (a +:+ b) +:+ c = a +:+ b +:+ c.
Proof.
  induction a as [|x a IH]; [reflexivity|]. now rewrite !app_cons_s, IH.
Qed.

Lemma app_nil_r_s (a : string) : a +:+ "" = a.
Proof. induction a as [|x a IH]; [reflexivity|]. now rewrite app_cons_s, IH. Qed.

Lemma app_length_s (a b : string) :
  String.length (a +:+ b) = (String.length a + String.length b)%nat.
Proof.
  induction a as [|x a IH]; [reflexivity|]. rewrite app_cons_s. cbn. now rewrite IH.
Qed.

Lemma len_nonneg (s : string) : 0 <= len s.
Proof. unfold len. lia. Qed.

Lemma take_drop_s (n : nat) (s : string) : string_take n s +:+ string_drop n s = s.
Proof.
  revert s. induction n as [|n IH]; intros [|c s]; cbn; try reflexivity.
  now rewrite app_cons_s, IH.
Qed.

Lemma string_drop_length (n : nat) (s : string) :
  String.length (string_drop n s) = (String.length s - n)%nat.
Proof.
  revert s. induction n as [|n IH]; intros [|c s]; cbn; try reflexivity.
  apply IH.
Qed.

Lemma prefix_app (sub s : string) :
  String.prefix sub s = true <-> exists b, s = sub +:+ b.
Proof.
  revert s. induction sub as [|x sub IH]; intros s.
  - destruct s; cbn; split; eauto.
  - destruct s as [|y s]; cbn.
    + split; [discriminate|]. intros [b Hb]. discriminate.
    + destruct (ascii_dec x y) as [->|Hne].
      * rewrite IH. split; intros [b Hb]; exists b.
        -- now rewrite Hb.
        -- rewrite app_cons_s in Hb. now injection Hb.
      * split; [discriminate|]. intros [b Hb]. rewrite app_cons_s in Hb.
        injection Hb as Hxy _. congruence.
Qed.

(** [Contains] is the substring relation. *)
Lemma Contains_spec (s sub : string) :
  Contains s sub = true <-> exists a b, s = a +:+ sub +:+ b.
Proof.
  induction s as [|c s IH]; cbn [Contains].
  - rewrite orb_false_r, prefix_app. split.
    + intros [b Hb]. now exists "", b.
    + intros [a [b Hab]]. exists b. destruct a; [exact Hab|discriminate].
  - rewrite orb_true_iff, prefix_app, IH. split.
    + intros [[b Hb]|[a [b Hab]]].
      * now exists "", b.
      * exists (String c a), b. now rewrite app_cons_s, Hab.
    + intros [a [b Hab]]. destruct a as [|x a].
      * left. now exists b.
      * right. exists a, b. rewrite app_cons_s in Hab. now injection Hab.
Qed.

(** ** The filter *)

Lemma Split_nonempty (s : string) (sep : ascii) : Split s sep <> [].
Proof.
  destruct s as [|c r]; cbn [Split]; [discriminate|].
  destruct (Ascii.eqb c sep); [discriminate|].
  destruct (Split r sep); discriminate.
Qed.

(** The lines of a file are its pieces between the newlines: joined with
    newlines they give the file back. *)
Lemma Join_Split (s : string) : Join (Split s newline) nl = s.
Proof.
  unfold Join. induction s as [|c r IH]; [reflexivity|]. cbn [Split].
  pose proof (Split_nonempty r newline) as Hne.
  destruct (Ascii.eqb_spec c newline) as [->|Hc].
  - destruct (Split r newline) as [|piece pieces]; [contradiction|].
    cbn [String.concat]. cbn [String.concat] in IH. now rewrite IH.
  - destruct (Split r newline) as [|piece pieces]; [contradiction|].
    destruct pieces as [|piece' pieces]; cbn [String.concat] in *; now rewrite <- IH.
Qed.

Section FilterProperties.

Variable parseRFC3339 : string -> option Z.

Lemma filter_fold (keep : string -> bool) (lines acc : list string) :
  fold_left (fun kept line => if keep line then (kept ++ [line])%list else kept) lines acc
  = (acc ++ List.filter keep lines)%list.
Proof.
  revert acc. induction lines as [|l lines IH]; intros acc; cbn.
  - now rewrite app_nil_r.
  - rewrite IH. destruct (keep l); [|reflexivity].
    now rewrite <- app_assoc.
Qed.

Lemma keepLine_spec (startTime endTime : Z) (line : string) :
  keepLine parseRFC3339 startTime endTime line = true <->
  25 <= len line /\
  exists logTime, parseRFC3339 (string_take 25 line) = Some logTime /\
                  startTime < logTime /\ logTime < endTime.
Proof.
  unfold keepLine.
  destruct (Z.ltb_spec 0 (len line)) as [Hpos|Hpos].
  - destruct (Z.leb_spec 25 (len line)) as [Hlen|Hlen].
    + destruct (parseRFC3339 (string_take 25 line)) as [t|].
      * rewrite andb_true_iff, !Z.ltb_lt. split.
        -- intros [? ?]. split; [assumption|]. now exists t.
        -- intros [_ [t' [Ht' [? ?]]]]. injection Ht' as ->. now split.
      * split; [discriminate|]. intros [_ [t' [Ht' _]]]. discriminate.
    + split; [discriminate|]. lia.
  - split; [discriminate|]. lia.
Qed.

(** C3.  The filter keeps, in file order, exactly the lines of the log file
    that are at least 25 bytes long, whose first 25 bytes parse as an RFC3339
    timestamp, and whose instant is strictly after the start and strictly
    before the end of the window; a line shorter than 25 bytes is never
    kept. *)
Theorem filter_keeps_exactly_window_lines (startTime endTime : Z) (logData : string) :
  filterLogLines parseRFC3339 startTime endTime logData
  = List.filter (keepLine parseRFC3339 startTime endTime) (Split logData newline)
  /\ (forall line,
        In line (filterLogLines parseRFC3339 startTime endTime logData) <->
        In line (Split logData newline) /\
        25 <= len line /\
        exists logTime, parseRFC3339 (string_take 25 line) = Some logTime /\
                        startTime < logTime /\ logTime < endTime)
  /\ (forall line,
        len line < 25 ->
        ~ In line (filterLogLines parseRFC3339 startTime endTime logData)).
Proof.
  assert (Heq : filterLogLines parseRFC3339 startTime endTime logData
                = List.filter (keepLine parseRFC3339 startTime endTime)
                    (Split logData newline)).
  { unfold filterLogLines. now rewrite filter_fold. }
  split; [exact Heq|]. split.
  - intros line. rewrite Heq, filter_In, keepLine_spec. reflexivity.
  - intros line Hshort Hin. rewrite Heq in Hin.
    apply filter_In in Hin as [_ Hkeep]. apply keepLine_spec in Hkeep. lia.
Qed.

End FilterProperties.

(** ** The completion client *)

(** C5.  The three response shapes, as [processLogChunk] answers them once
    the body is decoded: a first choice with message content X is a success
    whose analysis text is X (returned under the chunk's label line); an
    error object with message "bad" is a failure carrying "bad"; an empty
    list of choices is a success carrying the "No analysis received"
    placeholder. *)
Theorem completion_client_parsing (chunkLabel X bad : string) :
  let withContent : gmap string json :=
    {[ "choices" := JArray [JObject {[ "message" := JObject {[ "content" := JString X ]} ]}] ]} in
  let withError : gmap string json :=
    {[ "error" := JObject {[ "message" := JString bad ]} ]} in
  let noChoices : gmap string json := {[ "choices" := JArray [] ]} in
  (extractAnalysis withContent chunkLabel = X /\
   processReply (Decoded withContent) chunkLabel
   = ("=== " +:+ chunkLabel +:+ " ===" +:+ nl +:+ nl +:+ X, false)) /\
  processReply (Decoded withError) chunkLabel
  = ("Error from AI service: " +:+ bad, true) /\
  processReply (Decoded noChoices) chunkLabel
  = ("=== " +:+ chunkLabel +:+ " ===" +:+ nl +:+ nl +:+
     "No analysis received for " +:+ chunkLabel +:+ ".", false).
Proof.
  intros withContent withError noChoices.
  repeat split; reflexivity.
Qed.

(** ** The enhancer *)

Lemma fallbackSection_nonempty : fallbackSection <> "".
Proof. discriminate. Qed.

(** C7.  The enhancer's output is header, reply and the synthesized
    RECOMMENDATIONS section exactly when the upper-cased reply does not
    contain RECOMMENDATION, that is, when no part of it reads RECOMMENDATION
    once upper-cased; otherwise it is header and reply alone. *)
Theorem fallback_iff_no_recommendation (ToUpper : string -> string) (now reply : string) :
  let output := formatEnhanced ToUpper now reply in
  (output = enhancedHeader now +:+ reply +:+ fallbackSection <->
   Contains (ToUpper reply) "RECOMMENDATION" = false) /\
  (output = enhancedHeader now +:+ reply <->
   Contains (ToUpper reply) "RECOMMENDATION" = true) /\
  (Contains (ToUpper reply) "RECOMMENDATION" = true <->
   exists before after, ToUpper reply = before +:+ "RECOMMENDATION" +:+ after).
Proof.
  intros output. subst output. unfold formatEnhanced.
  split; [|split].
  - destruct (Contains (ToUpper reply) "RECOMMENDATION"); cbn [negb].
    + split; [|discriminate]. intros H.
      do 2 apply String.app_inj in H. discriminate.
    + split; reflexivity.
  - destruct (Contains (ToUpper reply) "RECOMMENDATION"); cbn [negb].
    + rewrite app_nil_r_s. split; reflexivity.
    + split; [|discriminate]. intros H.
      rewrite <- (app_nil_r_s reply) in H at 2.
      do 2 apply String.app_inj in H. discriminate.
  - apply Contains_spec.
Qed.

(** Two replies under the byte-wise upper-casing of ASCII text: the first
    names its recommendations in mixed case and is left as it is, the second
    gets the fallback section. *)
Lemma reply_with_recommendations_is_kept (now : string) :
  formatEnhanced asciiToUpper now "Summary. Recommendations: rotate the logs."
  = enhancedHeader now +:+ "Summary. Recommendations: rotate the logs.".
Proof.
  unfold formatEnhanced.
  change (Contains (asciiToUpper "Summary. Recommendations: rotate the logs.")
            "RECOMMENDATION") with true.
  cbn [negb]. now rewrite app_nil_r_s.
Qed.

Lemma reply_without_recommendations_gets_fallback (now : string) :
  formatEnhanced asciiToUpper now "Disk errors on sda."
  = enhancedHeader now +:+ "Disk errors on sda." +:+ fallbackSection.
Proof. reflexivity. Qed.

(** The reply the enhancer formats is the first choice's message content. *)
Lemma enhancer_formats_content (ToUpper : string -> string) (service : string -> reply)
    (now summaryText content : string) (result : gmap string json) :
  service summaryText = Decoded result ->
  serviceError result = None ->
  firstContent result = Some content ->
  enhanceSummaryWithRecommendations ToUpper service now summaryText
  = inl (formatEnhanced ToUpper now content).
Proof.
  intros Hs He Hc. unfold enhanceSummaryWithRecommendations.
  now rewrite Hs, He, Hc.
Qed.

Lemma get_None_iff (i : nat) (s : string) :
  String.get i s = None <-> (String.length s <= i)%nat.
Proof.
  revert i. induction s as [|c s IH]; intros i; cbn.
  - split; [lia|reflexivity].
  - destruct i as [|i]; [split; [discriminate|lia]|].
    rewrite IH. lia.
Qed.

Lemma dropFirstLine_found (budget i p : nat) (s : string) :
  (i <= p < i + budget)%nat ->
  String.get p s = Some newline ->
  (forall j, (i <= j < p)%nat -> String.get j s <> Some newline) ->
  dropFirstLine budget i s = string_drop (p + 1) s.
Proof.
  revert i. induction budget as [|budget IH]; intros i Hp Hnl Hfirst; [lia|].
  cbn [dropFirstLine].
  destruct (String.get i s) as [c|] eqn:Hget.
  - destruct (Ascii.eqb_spec c newline) as [->|Hc].
    + destruct (Nat.eq_dec p i) as [->|Hne]; [reflexivity|].
      exfalso. apply (Hfirst i); [lia|assumption].
    + assert (p <> i) by (intros ->; congruence).
      apply IH; [lia|assumption|]. intros j Hj. apply Hfirst. lia.
  - apply get_None_iff in Hget.
    assert (String.get p s = None) by (apply get_None_iff; lia). congruence.
Qed.

Lemma dropFirstLine_none (budget i : nat) (s : string) :
  (forall j, (i <= j < i + budget)%nat -> String.get j s <> Some newline) ->
  dropFirstLine budget i s = s.
Proof.
  revert i. induction budget as [|budget IH]; intros i Hnone; [reflexivity|].
  cbn [dropFirstLine].
  destruct (String.get i s) as [c|] eqn:Hget; [|reflexivity].
  destruct (Ascii.eqb_spec c newline) as [->|Hc].
  - exfalso. apply (Hnone i); [lia|assumption].
  - apply IH. intros j Hj. apply Hnone. lia.
Qed.

(** C9.  A report of at most 100000 bytes is passed on as it is.  A longer
    one is cut to its last 100000 bytes; when one of the first 1000 bytes of
    that tail is a newline, everything up to and including the first newline
    is dropped as well, and otherwise the tail is kept whole. *)
Theorem truncate_keeps_trailing_lines (summaryData : string) :
  let tail := string_drop (Z.to_nat (len summaryData - 100000)) summaryData in
  (len summaryData <= 100000 -> truncateSummary summaryData = summaryData) /\
  (100000 < len summaryData ->
     len tail = 100000 /\
     (forall i, (i < 1000)%nat ->
        String.get i tail = Some newline ->
        (forall j, (j < i)%nat -> String.get j tail <> Some newline) ->
        truncateSummary summaryData = string_drop (i + 1) tail) /\
     ((forall i, (i < 1000)%nat -> String.get i tail <> Some newline) ->
        truncateSummary summaryData = tail)).
Proof.
  intros tail. unfold truncateSummary. split.
  - intros Hsmall. destruct (Z.gtb_spec (len summaryData) 100000); [lia|reflexivity].
  - intros Hbig. destruct (Z.gtb_spec (len summaryData) 100000); [|lia].
    fold tail. split; [|split].
    + unfold tail, len in *. rewrite string_drop_length. lia.
    + intros i Hi Hnl Hfirst. apply dropFirstLine_found; [lia|assumption|].
      intros j Hj. apply Hfirst. lia.
    + intros Hnone. apply dropFirstLine_none. intros j Hj. apply Hnone. lia.
Qed.

Lemma truncate_keeps_trailing_lines_witness :
  truncateSummary longReport
  = string_drop 8 (string_drop (Z.to_nat (len longReport - 100000)) longReport).
Proof.
  refine (proj1 (proj2 (proj2 (truncate_keeps_trailing_lines longReport) _)) 7%nat _ _ _).
  - vm_compute. reflexivity.
  - lia.
  - vm_compute. reflexivity.
  - intros j Hj.
    assert (Hcases : (j = 0 \/ j = 1 \/ j = 2 \/ j = 3 \/ j = 4 \/ j = 5 \/ j = 6)%nat) by lia.
    destruct Hcases as [->|[->|[->|[->|[->|[->| ->]]]]]]; vm_compute; discriminate.
Defined.

(** ** The final report *)

Lemma totalLen_cons (text : string) (texts : list string) :
  totalLen (text :: texts) = len text + totalLen texts.
Proof. reflexivity. Qed.

Lemma totalLen_nonneg (texts : list string) : 0 <= totalLen texts.
Proof.
  induction texts as [|t texts IH]; [cbn; lia|].
  rewrite totalLen_cons. pose proof (len_nonneg t). lia.
Qed.

Lemma written_in_order_cons (piece : string) (pieces : list string) :
  written_in_order (piece :: pieces) = piece +:+ written_in_order pieces.
Proof. reflexivity. Qed.

Lemma boundedAppend_stops (ceiling : Z) (what after : string) (n : Z)
    (items : list string) :
  forall (i : nat) (idx totalChars : Z),
    (i < length items)%nat ->
    ceiling < totalChars + totalLen (take (S i) items) ->
    (forall k, (k < i)%nat -> totalChars + totalLen (take (S k) items) <= ceiling) ->
    boundedAppend ceiling what after n idx items totalChars
    = (written_in_order (map (fun item => item +:+ after) (take i items)) +:+
       truncationNote (n - (idx + Z.of_nat i)) what,
       totalChars + totalLen (take i items)).
Proof.
  induction items as [|item rest IH]; intros i idx totalChars Hi Hover Hunder.
  - cbn in Hi. lia.
  - cbn [boundedAppend]. destruct i as [|i].
    + rewrite firstn_cons, take_0, totalLen_cons in Hover. cbn in Hover.
      destruct (Z.gtb_spec (totalChars + len item) ceiling); [|lia].
      rewrite take_0. cbn [map written_in_order fold_right totalLen].
      rewrite app_nil_l_s.
      replace (idx + Z.of_nat 0) with idx by lia. now rewrite Z.add_0_r.
    + pose proof (Hunder 0%nat ltac:(lia)) as H0.
      rewrite firstn_cons, take_0, totalLen_cons in H0. cbn in H0.
      destruct (Z.gtb_spec (totalChars + len item) ceiling); [lia|].
      rewrite (IH i (idx + 1) (totalChars + len item)).
      * rewrite firstn_cons, map_cons, written_in_order_cons, totalLen_cons.
        replace (idx + Z.of_nat (S i)) with (idx + 1 + Z.of_nat i) by lia.
        now rewrite !app_assoc_s, Z.add_assoc.
      * cbn in Hi. lia.
      * rewrite firstn_cons, totalLen_cons in Hover. lia.
      * intros k Hk. pose proof (Hunder (S k) ltac:(lia)) as Hk'.
        rewrite firstn_cons, totalLen_cons in Hk'. lia.
Qed.

(** C6.  When the accumulated size of the analyses first exceeds the ceiling
    at index i, the findings section of the final report consists of the
    analyses 0 .. i-1, each followed by the separator, and of the truncation
    note, which cites len(analyses) - i; the error section then starts from
    the size accumulated so far. *)
Theorem final_report_truncation (ceiling : Z) (now : string)
    (analyses errors : list string) (i : nat) :
  (i < length analyses)%nat ->
  ceiling < totalLen (take (S i) analyses) ->
  (forall k, (k < i)%nat -> totalLen (take (S k) analyses) <= ceiling) ->
  compileFinalSummaryWith ceiling now analyses errors
  = reportHeader now analyses errors +:+
    "## DETAILED FINDINGS" +:+ nl +:+ nl +:+
    (written_in_order (map (fun analysis => analysis +:+ separator) (take i analyses)) +:+
     truncationNote (llen analyses - Z.of_nat i) "analyses") +:+
    errorSection ceiling errors (totalLen (take i analyses)).
Proof.
  intros Hi Hover Hunder. unfold compileFinalSummaryWith.
  rewrite (boundedAppend_stops ceiling "analyses" separator (llen analyses) analyses i 0 0);
    [|assumption|lia|intros k Hk; specialize (Hunder k Hk); lia].
  cbn [fst snd]. rewrite !Z.add_0_l. reflexivity.
Qed.

Lemma final_report_truncation_witness :
  compileFinalSummaryWith 5 "Sat, 31 Oct 2026 10:00:00 UTC" ["abc"; "de"; "f"; "g"] []
  = reportHeader "Sat, 31 Oct 2026 10:00:00 UTC" ["abc"; "de"; "f"; "g"] [] +:+
    "## DETAILED FINDINGS" +:+ nl +:+ nl +:+
    (("abc" +:+ separator) +:+ ("de" +:+ separator) +:+ "" +:+
     truncationNote 2 "analyses") +:+ "".
Proof.
  refine (final_report_truncation 5 "Sat, 31 Oct 2026 10:00:00 UTC"
            ["abc"; "de"; "f"; "g"] [] 2 _ _ _).
  - cbn. lia.
  - reflexivity.
  - intros k Hk.
    assert (Hcases : (k = 0 \/ k = 1)%nat) by lia.
    destruct Hcases as [-> | ->]; vm_compute; discriminate.
Defined.

(** ** float64 arithmetic of the shrink step

    The operations of [SpecFloat] shift the mantissa to 53 digits and round
    it; the lemmas below bound what comes out by one unit in the last place
    on both sides.  That settles [int(30.0 * (1500.0 / estimate))] whenever
    the estimate does not divide 45000; for the fifteen estimates that do,
    the computation is evaluated. *)

Lemma digits2_pos_bounds (p : positive) :
  2 ^ (Zpos (digits2_pos p) - 1) <= Zpos p < 2 ^ Zpos (digits2_pos p).
Proof.
  induction p as [p IH|p IH|]; cbn [digits2_pos].
  - rewrite Pos2Z.inj_succ.
    replace (Z.succ (Zpos (digits2_pos p)) - 1) with (Z.succ (Zpos (digits2_pos p) - 1)) by lia.
    rewrite !Z.pow_succ_r by lia. lia.
  - rewrite Pos2Z.inj_succ.
    replace (Z.succ (Zpos (digits2_pos p)) - 1) with (Z.succ (Zpos (digits2_pos p) - 1)) by lia.
    rewrite !Z.pow_succ_r by lia. lia.
  - cbn. lia.
Qed.

Lemma digits2_pos_unique (p : positive) (k : Z) :
  2 ^ (k - 1) <= Zpos p < 2 ^ k -> Zpos (digits2_pos p) = k.
Proof.
  intros [Hlo Hhi]. pose proof (digits2_pos_bounds p) as [Dlo Dhi].
  set (d := Zpos (digits2_pos p)) in *.
  assert (Hk : 0 < k).
  { destruct (Z.ltb_spec 0 k); [assumption|].
    destruct k as [|k|k]; [change (2 ^ 0) with 1 in Hhi; lia|lia|].
    rewrite Z.pow_neg_r in Hhi by lia. lia. }
  destruct (Z.lt_trichotomy d k) as [Hlt|[Heq|Hgt]]; [|assumption|].
  - assert (2 ^ d <= 2 ^ (k - 1)) by (apply Z.pow_le_mono_r; lia). lia.
  - assert (2 ^ k <= 2 ^ (d - 1)) by (apply Z.pow_le_mono_r; lia). lia.
Qed.

Lemma shr_m_shr_1 (mrs : shr_record) :
  0 <= shr_m mrs -> shr_m (shr_1 mrs) = shr_m mrs / 2.
Proof.
  destruct mrs as [m r s]. cbn [shr_m]. intros Hm. unfold shr_1.
  destruct m as [|[p|p|]|p]; cbn [shr_m]; try lia; try reflexivity.
  - apply Z.div_unique with 1; lia.
  - apply Z.div_unique with 0; lia.
Qed.

Lemma shr_m_iter (n : positive) :
  forall mrs, 0 <= shr_m mrs ->
    shr_m (SpecFloat.iter_pos shr_1 n mrs) = shr_m mrs / 2 ^ Zpos n.
Proof.
  induction n as [n IH|n IH|]; intros mrs Hm; cbn [SpecFloat.iter_pos].
  - assert (H1 : 0 <= shr_m (shr_1 mrs)).
    { rewrite shr_m_shr_1 by assumption. apply Z.div_pos; lia. }
    assert (H2 : 0 <= shr_m (SpecFloat.iter_pos shr_1 n (shr_1 mrs))).
    { rewrite IH by assumption. apply Z.div_pos; [assumption|]. apply Z.pow_pos_nonneg; lia. }
    rewrite IH, IH, shr_m_shr_1 by assumption.
    rewrite !Z.div_div by (try apply Z.pow_pos_nonneg; lia).
    f_equal. change (Zpos n~1) with (2 * Zpos n + 1).
    replace (2 * Zpos n + 1) with (1 + Zpos n + Zpos n) by lia.
    rewrite !Z.pow_add_r by lia. lia.
  - assert (H2 : 0 <= shr_m (SpecFloat.iter_pos shr_1 n mrs)).
    { rewrite IH by assumption. apply Z.div_pos; [assumption|]. apply Z.pow_pos_nonneg; lia. }
    rewrite IH, IH by assumption.
    rewrite !Z.div_div by (try apply Z.pow_pos_nonneg; lia).
    f_equal. change (Zpos n~0) with (2 * Zpos n).
    replace (2 * Zpos n) with (Zpos n + Zpos n) by lia.
    rewrite !Z.pow_add_r by lia. lia.
  - rewrite shr_m_shr_1 by assumption. reflexivity.
Qed.

Lemma shr_m_of_loc (m : Z) (l : location) : shr_m (shr_record_of_loc m l) = m.
Proof. destruct l as [|[]]; reflexivity. Qed.

Lemma loc_of_shr_of_loc (m : Z) (l : location) :
  loc_of_shr_record (shr_record_of_loc m l) = l.
Proof. destruct l as [|[]]; reflexivity. Qed.

Lemma round_nearest_even_bounds (m : Z) (l : location) :
  m <= round_nearest_even m l <= m + 1.
Proof.
  unfold round_nearest_even. destruct l as [|[]]; try lia. destruct (Z.even m); lia.
Qed.

Lemma fexp_normal (e : Z) : -1021 <= e -> fexp 53 1024 e = e - 53.
Proof. intros He. unfold fexp, emin. lia. Qed.

Lemma shr_spec (mrs : shr_record) (e n : Z) :
  0 <= n -> 0 <= shr_m mrs ->
  shr_m (fst (shr mrs e n)) = shr_m mrs / 2 ^ n /\ snd (shr mrs e n) = e + n.
Proof.
  intros Hn Hm. destruct n as [|p|p]; cbn [shr fst snd].
  - rewrite Z.pow_0_r, Z.div_1_r. lia.
  - split; [now apply shr_m_iter|reflexivity].
  - lia.
Qed.

Lemma Zdigits2_unique (z k : Z) : 2 ^ (k - 1) <= z < 2 ^ k -> 0 < z -> Zdigits2 z = k.
Proof.
  intros Hb Hz. destruct z as [|p|p]; try lia. cbn [Zdigits2].
  now apply digits2_pos_unique.
Qed.

Lemma round_aux_bound (mx : positive) (ex : Z) (lx : location) :
  let d := Zpos (digits2_pos mx) in
  53 <= d -> -1021 <= d + ex -> d + ex <= 1023 ->
  exists m e,
    binary_round_aux 53 1024 false (Zpos mx) ex lx = S754_finite false m e /\
    2 ^ 52 <= Zpos m < 2 ^ 53 /\
    ex <= e <= ex + (d - 53) + 1 /\
    Zpos m * 2 ^ (e - ex) <= Zpos mx + 2 ^ (d - 53) /\
    Zpos mx < (Zpos m + 1) * 2 ^ (e - ex) /\
    (d = 53 -> lx = loc_Exact -> m = mx /\ e = ex).
Proof.
  intros d Hd Hlo Hhi.
  pose proof (digits2_pos_bounds mx) as Hmx. fold d in Hmx.
  assert (Hpow : 2 ^ d = 2 ^ 53 * 2 ^ (d - 53)).
  { rewrite <- Z.pow_add_r by lia. f_equal. lia. }
  assert (Hpow' : 2 ^ (d - 1) = 2 ^ 52 * 2 ^ (d - 53)).
  { rewrite <- Z.pow_add_r by lia. f_equal. lia. }
  assert (Hu : 0 < 2 ^ (d - 53)) by (apply Z.pow_pos_nonneg; lia).
  set (u := 2 ^ (d - 53)) in *.
  unfold binary_round_aux, shr_fexp. cbn [Zdigits2]. fold d.
  rewrite fexp_normal by lia.
  replace (d + ex - 53 - ex) with (d - 53) by lia.
  pose proof (shr_spec (shr_record_of_loc (Zpos mx) lx) ex (d - 53) ltac:(lia)
                ltac:(rewrite shr_m_of_loc; lia)) as [Hm1 He1].
  destruct (shr (shr_record_of_loc (Zpos mx) lx) ex (d - 53)) as [mrs1 e1] eqn:Hshr1.
  cbn [fst snd] in Hm1, He1. rewrite shr_m_of_loc in Hm1. fold u in Hm1.
  assert (Hm1b : 2 ^ 52 <= shr_m mrs1 < 2 ^ 53).
  { rewrite Hm1. split.
    - apply Z.div_le_lower_bound; lia.
    - apply Z.div_lt_upper_bound; lia. }
  assert (Hm1u : shr_m mrs1 * u <= Zpos mx).
  { rewrite Hm1. rewrite Z.mul_comm. apply Z.mul_div_le. lia. }
  assert (Hm1l : Zpos mx < (shr_m mrs1 + 1) * u).
  { rewrite Hm1. rewrite Z.mul_comm. apply Z.mul_succ_div_gt. lia. }
  pose proof (round_nearest_even_bounds (shr_m mrs1) (loc_of_shr_record mrs1)) as Hm2.
  remember (round_nearest_even (shr_m mrs1) (loc_of_shr_record mrs1)) as m2 eqn:Hm2def.
  destruct (Z.eq_dec m2 (2 ^ 53)) as [Hcarry|Hnocarry].
  - (* the mantissa was rounded up to 2^53 *)
    rewrite Hcarry. change (Zdigits2 (2 ^ 53)) with 54.
    rewrite fexp_normal by lia.
    replace (54 + e1 - 53 - e1) with 1 by lia.
    cbn [shr SpecFloat.iter_pos shr_record_of_loc shr_1 shr_m].
    change (2 ^ 53) with (Zpos (2 ^ 53)%positive) at 1.
    cbn [shr_1 shr_m Pos.pow Pos.iter Pos.mul].
    destruct (Z.leb_spec (e1 + 1) (1024 - 53)) as [_|Hbad]; [|lia].
    eexists _, _. split; [reflexivity|].
    split; [cbn; lia|]. split; [lia|].
    replace (e1 + 1 - ex) with (1 + (d - 53)) by lia.
    rewrite Z.pow_add_r by lia. fold u.
    change (2 ^ 1) with 2.
    change (Zpos 4503599627370496) with (2 ^ 52).
    split; [|split].
    + assert (2 ^ 53 * u <= (shr_m mrs1 + 1) * u) by (apply Z.mul_le_mono_nonneg_r; lia).
      lia.
    + lia.
    + intros Hd53 ->. exfalso.
      assert (Hex : loc_of_shr_record mrs1 = loc_Exact).
      { replace (d - 53) with 0 in Hshr1 by lia. cbn [shr] in Hshr1.
        injection Hshr1 as Hmrs _. rewrite <- Hmrs. reflexivity. }
      rewrite Hex in Hm2def. unfold round_nearest_even in Hm2def. lia.
  - assert (Hm2b : 2 ^ 52 <= m2 < 2 ^ 53) by lia.
    rewrite (Zdigits2_unique m2 53) by (try lia; exact Hm2b).
    rewrite fexp_normal by lia.
    replace (53 + e1 - 53 - e1) with 0 by lia.
    cbn [shr shr_record_of_loc shr_m].
    destruct m2 as [|m|m]; try lia.
    destruct (Z.leb_spec e1 (1024 - 53)) as [_|Hbad]; [|lia].
    exists m, e1. split; [reflexivity|]. split; [lia|]. split; [lia|].
    replace (e1 - ex) with (d - 53) by lia. fold u.
    split; [|split].
    + assert (Zpos m * u <= (shr_m mrs1 + 1) * u) by (apply Z.mul_le_mono_nonneg_r; lia).
      lia.
    + assert ((shr_m mrs1 + 1) * u <= (Zpos m + 1) * u) by (apply Z.mul_le_mono_nonneg_r; lia).
      lia.
    + intros Hd53 ->.
      assert (Hex : loc_of_shr_record mrs1 = loc_Exact /\ shr_m mrs1 = Zpos mx).
      { replace (d - 53) with 0 in Hshr1 by lia. cbn [shr] in Hshr1.
        injection Hshr1 as Hmrs _. rewrite <- Hmrs. split; reflexivity. }
      destruct Hex as [Hex Hmm]. rewrite Hex, Hmm in Hm2def.
      unfold round_nearest_even in Hm2def.
      split; [congruence|lia].
Qed.

Lemma pos_iter_xO (p k : positive) : Zpos (Pos.iter xO p k) = Zpos p * 2 ^ Zpos k.
Proof.
  induction k as [|k IH] using Pos.peano_ind.
  - cbn [Pos.iter]. rewrite Pos2Z.inj_xO. change (2 ^ 1) with 2. lia.
  - rewrite Pos.iter_succ, Pos2Z.inj_xO, IH, Pos2Z.inj_succ, Z.pow_succ_r by lia. lia.
Qed.

(** [float64(n)] for an [int] above 1500: a normal number, equal to n up to
    45000 and at least 45001 above. *)
Lemma of_int_normal (est : Z) :
  1500 < est < 2 ^ 63 ->
  exists m e,
    Float64.of_int est = S754_finite false m e /\
    2 ^ 52 <= Zpos m < 2 ^ 53 /\
    -100 <= e <= 11 /\
    (est <= 45000 -> Zpos m * 2 ^ (e + 100) = est * 2 ^ 100) /\
    (45001 <= est -> 45001 * 2 ^ 100 <= Zpos m * 2 ^ (e + 100)).
Proof.
  intros Hest. destruct est as [|p|p]; try lia.
  pose proof (digits2_pos_bounds p) as Hp.
  set (d := Zpos (digits2_pos p)) in *.
  assert (Hd : 11 <= d <= 63).
  { split.
    - destruct (Z.le_gt_cases 11 d) as [|Hsmall]; [assumption|].
      assert (2 ^ d <= 2 ^ 10) by (apply Z.pow_le_mono_r; lia). lia.
    - destruct (Z.le_gt_cases d 63) as [|Hbig]; [assumption|].
      assert (2 ^ 63 <= 2 ^ (d - 1)) by (apply Z.pow_le_mono_r; lia). lia. }
  unfold Float64.of_int, binary_normalize, binary_round, shl_align. fold d.
  unfold Float64.prec, Float64.emax.
  rewrite Z.add_0_r, fexp_normal, Z.sub_0_r by lia.
  assert (Hnormal : forall lx,
    53 <= d ->
    exists m e,
      binary_round_aux 53 1024 false (Zpos p) 0 lx = S754_finite false m e /\
      2 ^ 52 <= Zpos m < 2 ^ 53 /\ -100 <= e <= 11 /\
      (Zpos p <= 45000 -> Zpos m * 2 ^ (e + 100) = Zpos p * 2 ^ 100) /\
      (45001 <= Zpos p -> 45001 * 2 ^ 100 <= Zpos m * 2 ^ (e + 100))).
  { intros lx Hd53.
    destruct (round_aux_bound p 0 lx) as [m [e [Heq [Hm [He _]]]]];
      fold d; try lia.
    fold d in He. exists m, e. split; [exact Heq|]. split; [exact Hm|]. split; [lia|].
    assert (2 ^ 52 <= 2 ^ (d - 1)) by (apply Z.pow_le_mono_r; lia).
    split; [lia|]. intros _.
    assert (2 ^ 100 <= 2 ^ (e + 100)) by (apply Z.pow_le_mono_r; lia).
    assert (2 ^ 52 * 2 ^ 100 <= Zpos m * 2 ^ (e + 100)) by (apply Z.mul_le_mono_nonneg; lia).
    lia. }
  destruct (d - 53) as [|k|k] eqn:Hk.
  - apply Hnormal. lia.
  - apply Hnormal. lia.
  - assert (Hkd : Zpos k = 53 - d) by lia.
    assert (Hmz : Zpos (Pos.iter xO p k) = Zpos p * 2 ^ (53 - d)).
    { rewrite pos_iter_xO. now rewrite Hkd. }
    assert (Hsplit : 2 ^ 53 = 2 ^ d * 2 ^ (53 - d)).
    { rewrite <- Z.pow_add_r by lia. f_equal. lia. }
    assert (Hsplit' : 2 ^ 52 = 2 ^ (d - 1) * 2 ^ (53 - d)).
    { rewrite <- Z.pow_add_r by lia. f_equal. lia. }
    assert (Hshift : 0 < 2 ^ (53 - d)) by (apply Z.pow_pos_nonneg; lia).
    assert (Hmzb : 2 ^ 52 <= Zpos (Pos.iter xO p k) < 2 ^ 53).
    { rewrite Hmz, Hsplit, Hsplit'. split.
      - apply Z.mul_le_mono_nonneg_r; lia.
      - apply Z.mul_lt_mono_pos_r; lia. }
    pose proof (digits2_pos_unique (Pos.iter xO p k) 53 Hmzb) as Hdz.
    destruct (round_aux_bound (Pos.iter xO p k) (Z.neg k) loc_Exact)
      as [m [e [Heq [Hm [He [_ [_ Hexact]]]]]]]; rewrite ?Hdz; try lia.
    destruct (Hexact Hdz eq_refl) as [-> ->].
    eexists _, _. split; [exact Heq|]. split; [exact Hmzb|]. split; [lia|].
    assert (Hexactly : Zpos (Pos.iter xO p k) * 2 ^ (Z.neg k + 100) = Zpos p * 2 ^ 100).
    { rewrite Hmz. replace (Z.neg k + 100) with (d + 47) by lia.
      rewrite <- Z.mul_assoc, <- Z.pow_add_r by lia.
      f_equal. f_equal. lia. }
    rewrite Hexactly. split; [reflexivity|].
    intros Hbig. apply Z.mul_le_mono_nonneg_r; lia.
Qed.

Lemma of_int_1500 :
  Float64.of_int 1500 = S754_finite false 6597069766656000 (-42).
Proof. reflexivity. Qed.

Lemma of_int_30 :
  Float64.of_int 30 = S754_finite false 8444249301319680 (-48).
Proof. reflexivity. Qed.

Lemma digits2_pos_range (p : positive) (lo hi : Z) :
  0 <= lo -> 2 ^ lo <= Zpos p < 2 ^ hi -> lo < Zpos (digits2_pos p) <= hi.
Proof.
  intros Hlo [Hp1 Hp2]. pose proof (digits2_pos_bounds p) as [D1 D2].
  set (d := Zpos (digits2_pos p)) in *. split.
  - destruct (Z.lt_ge_cases lo d) as [|Hle]; [assumption|].
    assert (2 ^ d <= 2 ^ lo) by (apply Z.pow_le_mono_r; lia). lia.
  - destruct (Z.le_gt_cases d hi) as [|Hgt]; [assumption|].
    assert (0 <= hi).
    { destruct hi as [|hi|hi]; try lia. rewrite Z.pow_neg_r in Hp2 by lia. lia. }
    assert (2 ^ hi <= 2 ^ (d - 1)) by (apply Z.pow_le_mono_r; lia). lia.
Qed.

(** [1500.0 / y] for a normal y: the quotient of the mantissas, rounded to
    53 digits, so within one unit in the last place of the quotient. *)
Lemma div_1500_shape (my : positive) (ey : Z) :
  2 ^ 52 <= Zpos my < 2 ^ 53 -> -100 <= ey <= 11 ->
  exists mq eqt g,
    Float64.div (Float64.of_int 1500) (S754_finite false my ey)
    = S754_finite false mq eqt /\
    eqt = -95 - ey + g /\ 0 <= g <= 2 /\
    2 ^ 52 <= Zpos mq < 2 ^ 53 /\
    Zpos mq * 2 ^ g <= (1500 * 2 ^ 95) / Zpos my + 2 /\
    (1500 * 2 ^ 95) / Zpos my < (Zpos mq + 1) * 2 ^ g.
Proof.
  intros Hmy Hey. rewrite of_int_1500.
  unfold Float64.div, Float64.prec, Float64.emax, SFdiv, SFdiv_core_binary.
  cbn [xorb].
  change (Zdigits2 (Zpos 6597069766656000)) with 53.
  rewrite (Zdigits2_unique (Zpos my) 53) by (try lia; exact Hmy).
  rewrite fexp_normal by lia.
  rewrite Z.min_l by lia.
  replace (-42 - ey - (53 + -42 - (53 + ey) - 53)) with 53 by lia.
  cbv iota. rewrite Z.shiftl_mul_pow2 by lia.
  change (Zpos 6597069766656000 * 2 ^ 53) with (1500 * 2 ^ 95).
  destruct (Z.div_eucl (1500 * 2 ^ 95) (Zpos my)) as [q r] eqn:Hdiv.
  assert (Hq : q = (1500 * 2 ^ 95) / Zpos my) by (unfold Z.div; now rewrite Hdiv).
  assert (Hqb : 2 ^ 52 <= q < 2 ^ 54).
  { rewrite Hq. split.
    - apply Z.div_le_lower_bound; lia.
    - apply Z.div_lt_upper_bound; lia. }
  destruct q as [|pq|pq]; try lia.
  pose proof (digits2_pos_range pq 52 54 ltac:(lia) Hqb) as Hdq.
  destruct (round_aux_bound pq (53 + -42 - (53 + ey) - 53) (new_location (Zpos my) r))
    as [mq [eqt [Heq [Hmq [He [Hup [Hdown _]]]]]]]; try lia.
  set (dq := Zpos (digits2_pos pq)) in *.
  exists mq, eqt, (eqt - (53 + -42 - (53 + ey) - 53)).
  split; [exact Heq|]. split; [lia|]. split; [lia|]. split; [exact Hmq|].
  rewrite <- Hq.
  assert (2 ^ (dq - 53) <= 2 ^ 1) by (apply Z.pow_le_mono_r; lia).
  change (2 ^ 1) with 2 in *. split; [lia|exact Hdown].
Qed.

(** [30.0 * q] for a normal q: the product of the mantissas, rounded to 53
    digits. *)
Lemma mul_30_shape (mq : positive) (eqt : Z) :
  2 ^ 52 <= Zpos mq < 2 ^ 53 -> -200 <= eqt <= 200 ->
  exists mp ep u h,
    Float64.mul (Float64.of_int 30) (S754_finite false mq eqt)
    = S754_finite false mp ep /\
    2 ^ 52 <= Zpos mp < 2 ^ 53 /\
    ep = eqt - 48 + h /\ 0 <= h /\
    0 < u /\ 2 ^ h <= 2 * u /\
    2 ^ 52 * u <= 15 * 2 ^ 49 * Zpos mq /\
    Zpos mp * 2 ^ h <= 15 * 2 ^ 49 * Zpos mq + u /\
    15 * 2 ^ 49 * Zpos mq < (Zpos mp + 1) * 2 ^ h.
Proof.
  intros Hmq Heq. rewrite of_int_30.
  unfold Float64.mul, Float64.prec, Float64.emax, SFmul. cbn [xorb].
  assert (HM : Zpos (8444249301319680 * mq) = 15 * 2 ^ 49 * Zpos mq).
  { rewrite Pos2Z.inj_mul. reflexivity. }
  assert (HMb : 2 ^ 101 <= Zpos (8444249301319680 * mq) < 2 ^ 106).
  { rewrite HM. lia. }
  pose proof (digits2_pos_range _ 101 106 ltac:(lia) HMb) as HdM.
  pose proof (digits2_pos_bounds (8444249301319680 * mq)) as HMd.
  destruct (round_aux_bound (8444249301319680 * mq) (-48 + eqt) loc_Exact)
    as [mp [ep [Hres [Hmp [He [Hup [Hdown _]]]]]]]; try lia.
  set (dM := Zpos (digits2_pos (8444249301319680 * mq))) in *.
  exists mp, ep, (2 ^ (dM - 53)), (ep - (-48 + eqt)).
  split; [exact Hres|]. split; [exact Hmp|]. split; [lia|]. split; [lia|].
  split; [apply Z.pow_pos_nonneg; lia|]. split.
  { replace (2 * 2 ^ (dM - 53)) with (2 ^ (dM - 53 + 1)).
    - apply Z.pow_le_mono_r; lia.
    - rewrite Z.pow_add_r by lia. change (2 ^ 1) with 2. lia. }
  rewrite <- HM. split; [|split; [exact Hup|exact Hdown]].
  rewrite <- Z.pow_add_r by lia.
  replace (52 + (dM - 53)) with (dM - 1) by lia. lia.
Qed.

(** The shrink step for a normal y = my * 2^ey: when k <= 45000 / y < k + 1
    with a margin of 1 / y on both sides, [int(30.0 * (1500.0 / y))] is k.
    The two roundings change the product by a relative 2^-50 at most, far
    less than the margin. *)
Lemma shrink_floor (my : positive) (ey k : Z) :
  2 ^ 52 <= Zpos my < 2 ^ 53 -> -100 <= ey <= 11 -> 0 <= k <= 29 ->
  45001 * 2 ^ 100 <= (k + 1) * (Zpos my * 2 ^ (ey + 100)) ->
  k * (Zpos my * 2 ^ (ey + 100)) <= 44999 * 2 ^ 100 ->
  Float64.to_int
    (Float64.mul (Float64.of_int 30)
       (Float64.div (Float64.of_int 1500) (S754_finite false my ey))) = k.
Proof.
  intros Hmy Hey Hk Habove Hbelow.
  destruct (div_1500_shape my ey Hmy Hey)
    as [mq [eqt [g [-> [Heq [Hg [Hmq [HQu HQl]]]]]]]].
  destruct (mul_30_shape mq eqt Hmq ltac:(lia))
    as [mp [ep [u [h [-> [Hmp [Hep [Hh [Hu [Hhu [HuM [Hpu Hpl]]]]]]]]]]]].
  set (A := Zpos my) in *. set (Q := 1500 * 2 ^ 95 / A) in *.
  set (M := 15 * 2 ^ 49 * Zpos mq) in *.
  assert (HQA : A * Q <= 1500 * 2 ^ 95) by (apply Z.mul_div_le; lia).
  assert (HQA' : 1500 * 2 ^ 95 < A * Z.succ Q) by (apply Z.mul_succ_div_gt; lia).
  assert (HG : 1 <= 2 ^ g <= 4).
  { split.
    - assert (0 < 2 ^ g) by (apply Z.pow_pos_nonneg; lia). lia.
    - change 4 with (2 ^ 2). apply Z.pow_le_mono_r; lia. }
  assert (HH : 0 < 2 ^ h) by (apply Z.pow_pos_nonneg; lia).
  assert (HY : A * 2 ^ (143 + ey) = A * 2 ^ (ey + 100) * 2 ^ 43).
  { rewrite <- Z.mul_assoc, <- Z.pow_add_r by lia. do 2 f_equal. lia. }
  set (G := 2 ^ g) in *. set (H := 2 ^ h) in *.
  set (Y := A * 2 ^ (ey + 100)) in *. set (W := 2 ^ (143 + ey)) in *.
  assert (HW : 0 < W) by (apply Z.pow_pos_nonneg; lia).
  set (R := Zpos mp * H * G).
  assert (HMG : M * G = 15 * 2 ^ 49 * (Zpos mq * G)) by (subst M; ring).
  (* the rounded product is below (k + 1) * W *)
  assert (Hupper : R < (k + 1) * W).
  { destruct (Z.lt_ge_cases R ((k + 1) * W)) as [|Hge]; [assumption|]. exfalso.
    assert (H1 : 2 ^ 52 * (Zpos mp * H) <= (2 ^ 52 + 1) * M) by lia.
    assert (H2 : 2 ^ 52 * R <= (2 ^ 52 + 1) * (M * G)).
    { subst R. replace (2 ^ 52 * (Zpos mp * H * G)) with (2 ^ 52 * (Zpos mp * H) * G) by ring.
      replace ((2 ^ 52 + 1) * (M * G)) with ((2 ^ 52 + 1) * M * G) by ring.
      apply Z.mul_le_mono_nonneg_r; lia. }
    assert (H3 : M * G <= 15 * 2 ^ 49 * (Q + 2)) by (rewrite HMG; lia).
    assert (H4 : A * (Q + 2) <= 1500 * 2 ^ 95 + 2 ^ 54) by lia.
    assert (H5 : A * (2 ^ 52 * R)
                 <= (2 ^ 52 + 1) * (15 * 2 ^ 49) * (1500 * 2 ^ 95 + 2 ^ 54)).
    { transitivity (A * ((2 ^ 52 + 1) * (15 * 2 ^ 49 * (Q + 2)))).
      - apply Z.mul_le_mono_nonneg_l; [lia|].
        transitivity ((2 ^ 52 + 1) * (M * G)); [exact H2|].
        apply Z.mul_le_mono_nonneg_l; lia.
      - replace (A * ((2 ^ 52 + 1) * (15 * 2 ^ 49 * (Q + 2))))
          with ((2 ^ 52 + 1) * (15 * 2 ^ 49) * (A * (Q + 2))) by ring.
        apply Z.mul_le_mono_nonneg_l; lia. }
    assert (H6 : 2 ^ 52 * 2 ^ 43 * (45001 * 2 ^ 100) <= A * (2 ^ 52 * R)).
    { transitivity (2 ^ 52 * 2 ^ 43 * ((k + 1) * Y)).
      - apply Z.mul_le_mono_nonneg_l; lia.
      - replace (2 ^ 52 * 2 ^ 43 * ((k + 1) * Y))
          with (2 ^ 52 * ((k + 1) * (Y * 2 ^ 43))) by ring.
        rewrite <- HY.
        replace (2 ^ 52 * ((k + 1) * (A * W))) with (A * (2 ^ 52 * ((k + 1) * W))) by ring.
        apply Z.mul_le_mono_nonneg_l; [lia|].
        apply Z.mul_le_mono_nonneg_l; lia. }
    lia. }
  (* and at least k * W *)
  assert (Hlower : k * W <= R).
  { destruct (Z.le_gt_cases (k * W) R) as [|Hlt]; [assumption|]. exfalso.
    assert (H1 : (2 ^ 51 - 1) * M <= 2 ^ 51 * (Zpos mp * H)) by lia.
    assert (H2 : (2 ^ 51 - 1) * (M * G) <= 2 ^ 51 * R).
    { subst R. replace (2 ^ 51 * (Zpos mp * H * G)) with (2 ^ 51 * (Zpos mp * H) * G) by ring.
      replace ((2 ^ 51 - 1) * (M * G)) with ((2 ^ 51 - 1) * M * G) by ring.
      apply Z.mul_le_mono_nonneg_r; lia. }
    assert (H3 : 15 * 2 ^ 49 * (Q - 3) <= M * G) by (rewrite HMG; lia).
    assert (H4 : 1500 * 2 ^ 95 - 2 ^ 55 <= A * (Q - 3)) by lia.
    assert (H5 : (2 ^ 51 - 1) * (15 * 2 ^ 49) * (1500 * 2 ^ 95 - 2 ^ 55)
                 <= A * (2 ^ 51 * R)).
    { transitivity (A * ((2 ^ 51 - 1) * (15 * 2 ^ 49 * (Q - 3)))).
      - replace (A * ((2 ^ 51 - 1) * (15 * 2 ^ 49 * (Q - 3))))
          with ((2 ^ 51 - 1) * (15 * 2 ^ 49) * (A * (Q - 3))) by ring.
        apply Z.mul_le_mono_nonneg_l; lia.
      - apply Z.mul_le_mono_nonneg_l; [lia|].
        transitivity ((2 ^ 51 - 1) * (M * G)); [|exact H2].
        apply Z.mul_le_mono_nonneg_l; lia. }
    assert (H6 : A * (2 ^ 51 * R) <= 2 ^ 51 * 2 ^ 43 * (44999 * 2 ^ 100)).
    { transitivity (2 ^ 51 * 2 ^ 43 * (k * Y)).
      - replace (2 ^ 51 * 2 ^ 43 * (k * Y)) with (2 ^ 51 * (k * (Y * 2 ^ 43))) by ring.
        rewrite <- HY.
        replace (2 ^ 51 * (k * (A * W))) with (A * (2 ^ 51 * (k * W))) by ring.
        apply Z.mul_le_mono_nonneg_l; [lia|].
        apply Z.mul_le_mono_nonneg_l; lia.
      - apply Z.mul_le_mono_nonneg_l; lia. }
    lia. }
  (* so the exponent is negative and the integer part is k *)
  subst ep.
  assert (Hneg : eqt - 48 + h < 0).
  { destruct (Z.lt_ge_cases (eqt - 48 + h) 0) as [|Hge]; [assumption|]. exfalso.
    assert (HWle : W <= H * G).
    { subst W H G. rewrite <- Z.pow_add_r by lia. apply Z.pow_le_mono_r; lia. }
    assert (30 * W <= Zpos mp * (H * G)) by (apply Z.mul_le_mono_nonneg; lia).
    assert ((k + 1) * W <= 30 * W) by (apply Z.mul_le_mono_nonneg_r; lia).
    subst R. lia. }
  destruct (eqt - 48 + h) as [|pe|pe] eqn:Hpe; try lia.
  assert (HWsplit : W = 2 ^ Zpos pe * (H * G)).
  { subst W H G. rewrite <- !Z.pow_add_r by lia. f_equal. lia. }
  assert (HHG : 0 < H * G) by lia.
  assert (Hfloor : Zpos mp / 2 ^ Zpos pe = k).
  { symmetry. apply Z.div_unique with (Zpos mp - k * 2 ^ Zpos pe); [|ring].
    left. split.
    - assert (k * 2 ^ Zpos pe * (H * G) <= Zpos mp * (H * G)).
      { replace (k * 2 ^ Zpos pe * (H * G)) with (k * W) by (rewrite HWsplit; ring).
        subst R. lia. }
      assert (k * 2 ^ Zpos pe <= Zpos mp) by (apply Z.mul_le_mono_pos_r with (H * G); lia).
      lia.
    - assert (Zpos mp * (H * G) < (k + 1) * 2 ^ Zpos pe * (H * G)).
      { replace ((k + 1) * 2 ^ Zpos pe * (H * G)) with ((k + 1) * W) by (rewrite HWsplit; ring).
        subst R. lia. }
      assert (Zpos mp < (k + 1) * 2 ^ Zpos pe) by (apply Z.mul_lt_mono_pos_r with (H * G); lia).
      lia. }
  unfold Float64.to_int. cbv beta iota zeta. rewrite Hfloor. unfold Float64.min_int64.
  destruct (Z.leb_spec (- 2 ^ 63) k); [|lia].
  destruct (Z.ltb_spec k (2 ^ 63)); [reflexivity|lia].
Qed.

Lemma exactQuotients_agree :
  forallb (fun estimated => reducedSize 30 estimated =? 45000 / estimated)
    exactQuotients = true.
Proof. vm_compute. reflexivity. Qed.

Lemma exactQuotients_complete (estimated k : Z) :
  1 <= k <= 29 -> estimated * k = 45000 -> In estimated exactQuotients.
Proof.
  intros Hk Hdiv.
  assert (Hcases : k = 1 \/ k = 2 \/ k = 3 \/ k = 4 \/ k = 5 \/ k = 6 \/ k = 7 \/
                   k = 8 \/ k = 9 \/ k = 10 \/ k = 11 \/ k = 12 \/ k = 13 \/
                   k = 14 \/ k = 15 \/ k = 16 \/ k = 17 \/ k = 18 \/ k = 19 \/
                   k = 20 \/ k = 21 \/ k = 22 \/ k = 23 \/ k = 24 \/ k = 25 \/
                   k = 26 \/ k = 27 \/ k = 28 \/ k = 29) by lia.
  unfold exactQuotients. cbn [In].
  repeat (destruct Hcases as [-> | Hcases]; [lia|]). subst k. lia.
Qed.

(** The float64 computation of the shrink step agrees with the integer
    quotient on every estimate above the ceiling. *)
Lemma reducedSize_30 (estimated : Z) :
  maxTokensPerChunk < estimated < 2 ^ 63 ->
  reducedSize 30 estimated = 30 * maxTokensPerChunk / estimated.
Proof.
  unfold maxTokensPerChunk. change (30 * 1500) with 45000. intros Hest.
  pose proof (Z.mul_div_le 45000 estimated ltac:(lia)) as Hle.
  pose proof (Z.mul_succ_div_gt 45000 estimated ltac:(lia)) as Hgt.
  assert (Hk : 0 <= 45000 / estimated <= 29).
  { split; [apply Z.div_pos; lia|].
    assert (45000 / estimated < 30) by (apply Z.div_lt_upper_bound; lia). lia. }
  set (k := 45000 / estimated) in *.
  destruct (Z.eq_dec (estimated * k) 45000) as [Hexact|Hinexact].
  - assert (Hin : In estimated exactQuotients).
    { apply (exactQuotients_complete estimated k); [|exact Hexact]. nia. }
    pose proof (proj1 (forallb_forall _ _) exactQuotients_agree estimated Hin) as Hagree.
    apply Z.eqb_eq in Hagree. exact Hagree.
  - destruct (of_int_normal estimated Hest)
      as [my [ey [Hy [Hmy [Hey [Hsmall Hlarge]]]]]].
    unfold reducedSize, maxTokensPerChunk. rewrite Hy.
    assert (Hpow : 0 < 2 ^ 100) by (apply Z.pow_pos_nonneg; lia).
    apply shrink_floor; try assumption.
    + destruct (Z.le_gt_cases estimated 45000) as [Hlow|Hhigh].
      * rewrite (Hsmall Hlow).
        replace ((k + 1) * (estimated * 2 ^ 100)) with (estimated * Z.succ k * 2 ^ 100) by ring.
        apply Z.mul_le_mono_nonneg_r; lia.
      * transitivity (1 * (Zpos my * 2 ^ (ey + 100))); [lia|].
        apply Z.mul_le_mono_nonneg_r; lia.
    + destruct (Z.le_gt_cases estimated 45000) as [Hlow|Hhigh].
      * rewrite (Hsmall Hlow).
        replace (k * (estimated * 2 ^ 100)) with (estimated * k * 2 ^ 100) by ring.
        apply Z.mul_le_mono_nonneg_r; lia.
      * assert (k = 0) by (subst k; apply Z.div_small; lia). subst k. lia.
Qed.

(** ** The chunker and the main loop *)

Lemma newEndOf_bounds (total i end_ estimated : Z) :
  i < total -> i < newEndOf total i end_ estimated <= total.
Proof.
  intros Hi. unfold newEndOf.
  destruct (Z.leb_spec (i + reducedSize (end_ - i) estimated) i);
    match goal with |- context [?a >? ?b] => destruct (Z.gtb_spec a b) end; lia.
Qed.

Lemma slice_ok {A : Type} (s : list A) (lo hi : Z) :
  0 <= lo -> lo <= hi -> hi <= llen s ->
  slice s lo hi = Ok (take (Z.to_nat (hi - lo)) (drop (Z.to_nat lo) s)).
Proof.
  intros H0 H1 H2. unfold slice, llen in *.
  destruct (Z.leb_spec 0 lo); [|lia].
  destruct (Z.leb_spec lo hi); [|lia].
  destruct (Z.leb_spec hi (Z.of_nat (length s))); [|lia].
  cbn. do 2 f_equal. lia.
Qed.

Lemma slice_nonempty {A : Type} (s : list A) (lo hi : Z) :
  0 <= lo -> lo < hi -> hi <= llen s ->
  take (Z.to_nat (hi - lo)) (drop (Z.to_nat lo) s) <> [].
Proof.
  intros H0 H1 H2 Hnil. apply (f_equal length) in Hnil.
  rewrite length_take, length_drop in Hnil. unfold llen in H2. cbn in Hnil. lia.
Qed.

Section ChunkerProperties.

Variable service : nat -> string -> reply.
Variable now : string.

(** Every window that starts inside the slice yields a chunk, and the chunk
    has at least one line. *)
Lemma chunkAt_ok (lines : list string) (linesPerChunk i : Z) :
  1 <= linesPerChunk -> 0 <= i < llen lines ->
  exists chunkLines, chunkAt lines linesPerChunk i = Ok chunkLines /\ chunkLines <> [].
Proof.
  intros Hlpc Hi. unfold chunkAt.
  set (end_ := if i + linesPerChunk >? llen lines then llen lines else i + linesPerChunk).
  assert (Hend : i < end_ <= llen lines).
  { subst end_. destruct (Z.gtb_spec (i + linesPerChunk) (llen lines)); lia. }
  rewrite slice_ok by lia. cbn [mbind outcome_bind].
  match goal with |- context [?a >? ?b] => destruct (a >? b) end.
  - match goal with |- context [newEndOf ?t ?i ?e ?est] =>
      pose proof (newEndOf_bounds t i e est ltac:(lia)) as Hnew end.
    rewrite slice_ok by lia. eexists. split; [reflexivity|].
    apply slice_nonempty; lia.
  - eexists. split; [reflexivity|]. apply slice_nonempty; lia.
Qed.

Lemma processChunks_ok (lines : list string) (linesPerChunk chunkCount : Z) :
  1 <= linesPerChunk ->
  forall (fuel : nat) (i : Z) (st : run),
    0 <= i -> (0 < fuel)%nat -> llen lines - i < Z.of_nat fuel ->
    exists st', processChunks service fuel lines linesPerChunk chunkCount i st = (st', Ok tt)
                /\ loopPost lines i st st'.
Proof.
  intros Hlpc. induction fuel as [|fuel IH]; intros i st Hi Hpos Hfuel; [lia|].
  - cbn [processChunks]. destruct (Z.ltb_spec i (llen lines)) as [Hlt|Hge].
    + destruct (chunkAt_ok lines linesPerChunk i Hlpc ltac:(lia)) as [chunkLines [-> Hne]].
      cbn [guarded]. unfold int_div.
      destruct (Z.eqb_spec linesPerChunk 0); [lia|].
      cbn [guarded].
      match goal with
      | |- context [afterChunk ?svc ?s ?c ?label] => set (st1 := afterChunk svc s c label)
      end.
      destruct (IH (i + linesPerChunk) st1 ltac:(lia) ltac:(lia) ltac:(lia))
        as [st' [Hrun Hpost]].
      exists st'. split; [exact Hrun|].
      destruct Hpost as [Hsame [Hlast [[chunks [Hem Hall]] Hcount]]].
      repeat split.
      * intros. lia.
      * intros _. destruct (Z.ltb_spec (i + linesPerChunk) (llen lines)) as [Hmore|Hdone].
        -- now apply Hlast.
        -- rewrite (Hsame Hdone). subst st1. unfold afterChunk. cbn [written successfulAnalyses errorMessages].
           now rewrite last_snoc.
      * exists (chunkLines :: chunks). split.
        -- rewrite Hem. subst st1. unfold afterChunk. cbn [emitted].
           now rewrite <- app_assoc.
        -- now constructor.
      * subst st1. unfold afterChunk in Hcount. cbn [written emitted] in Hcount.
        rewrite !length_app in Hcount. cbn in Hcount. lia.
    + exists st. split; [reflexivity|]. repeat split.
      * intros. lia.
      * exists []. split; [now rewrite app_nil_r|constructor].
Qed.


Lemma linesPerChunkOf_bounds (line : string) (lines : list string) :
  1 <= linesPerChunkOf (line :: lines) <= 30.
Proof.
  unfold linesPerChunkOf, llen. cbn [length].
  destruct (Z.leb_spec (Z.of_nat (S (length lines))) 30); lia.
Qed.

Lemma runChunks_ok (line : string) (lines : list string) :
  exists st, runChunks service (line :: lines) = (st, Ok tt)
             /\ loopPost (line :: lines) 0 start st.
Proof.
  pose proof (linesPerChunkOf_bounds line lines) as Hlpc.
  unfold runChunks, chunkCountOf, int_div.
  destruct (Z.eqb_spec (linesPerChunkOf (line :: lines)) 0); [lia|].
  cbn [guarded]. apply processChunks_ok; [lia|lia|lia|].
  unfold llen. lia.
Qed.

Lemma emitted_finish (st : run) : emitted (finish now st) = emitted st.
Proof. unfold finish. now destruct (0 <? llen (successfulAnalyses st)). Qed.

Lemma chunksOf_runChunks (lines : list string) :
  chunksOf service now lines
  = match runChunks service lines with
    | (st, Ok _) => Some (emitted st)
    | _ => None
    end.
Proof.
  unfold chunksOf, analyze.
  destruct (runChunks service lines) as [st [[]| | |]]; cbn; try reflexivity.
  now rewrite emitted_finish.
Qed.

(** Every chunk of a run has at least one line. *)
Lemma chunks_nonempty (lines : list string) (chunks : list (list string)) :
  chunksOf service now lines = Some chunks ->
  Forall (fun chunkLines => chunkLines <> []) chunks.
Proof.
  rewrite chunksOf_runChunks. destruct lines as [|line lines].
  - discriminate.
  - destruct (runChunks_ok line lines) as [st [-> [_ [_ [[chunks' [Hem Hall]] _]]]]].
    intros [= <-]. now rewrite Hem.
Qed.

(** C2.  When the filter keeps no line, [linesPerChunk] is 0 and the chunk
    count divides by zero: the run panics in its initial state, with nothing
    written.  When it keeps at least one line the divisor is positive, the
    count is defined and the run comes to a regular end. *)
Theorem empty_filter_divides_by_zero :
  (linesPerChunkOf [] = 0 /\
   chunkCountOf [] = Panic "runtime error: integer divide by zero" /\
   analyze service now [] = (start, Panic "runtime error: integer divide by zero") /\
   written start = []) /\
  (forall parseRFC3339 endTime logData,
     filterLogLines parseRFC3339 (endTime - hour) endTime logData = [] ->
     main parseRFC3339 service now endTime (Some logData)
     = (start, Panic "runtime error: integer divide by zero")) /\
  (forall line lines,
     let filtered := line :: lines in
     0 < linesPerChunkOf filtered /\
     chunkCountOf filtered
     = Ok (Z.quot (llen filtered + linesPerChunkOf filtered - 1) (linesPerChunkOf filtered)) /\
     exists st, analyze service now filtered = (st, Ok tt)).
Proof.
  split; [repeat split|split].
  - intros parseRFC3339 endTime logData Hnone. unfold main. now rewrite Hnone.
  - intros line lines filtered. subst filtered.
    pose proof (linesPerChunkOf_bounds line lines) as Hlpc.
    split; [lia|]. split.
    + unfold chunkCountOf, int_div.
      destruct (Z.eqb_spec (linesPerChunkOf (line :: lines)) 0); [lia|reflexivity].
    + destruct (runChunks_ok line lines) as [st [Hrun _]].
      exists (finish now st). unfold analyze. now rewrite Hrun.
Qed.

(** C10.  A run over at least one kept line ends regularly; the last thing
    the loop wrote is the checkpoint of its final state.  When no chunk
    succeeded nothing is written after that checkpoint, and when at least
    one succeeded the final report is written once more on top of it.  (With
    no kept line the run panics before the loop, see C2.) *)
Theorem final_report_iff_some_success (line : string) (lines : list string) :
  exists st final,
    runChunks service (line :: lines) = (st, Ok tt) /\
    analyze service now (line :: lines) = (final, Ok tt) /\
    last (written st)
    = Some (saveProgress (successfulAnalyses st) (errorMessages st)) /\
    ((successfulAnalyses st = [] /\ written final = written st) \/
     (successfulAnalyses st <> [] /\
      written final
      = (written st ++
           [compileFinalSummary now (successfulAnalyses st) (errorMessages st)])%list)).
Proof.
  destruct (runChunks_ok line lines) as [st [Hrun [_ [Hlast _]]]].
  exists st, (finish now st). split; [exact Hrun|]. split.
  - unfold analyze. now rewrite Hrun.
  - split.
    + apply Hlast. unfold llen. cbn [length]. lia.
    + unfold finish. destruct (successfulAnalyses st) as [|a rest].
      * left. now split.
      * right. split; [discriminate|reflexivity].
Qed.

(** The first slice of a window is the next [linesPerChunk] lines, or what
    is left of the sequence. *)
Lemma window_slice (lines : list string) (linesPerChunk i : Z) :
  1 <= linesPerChunk -> 0 <= i < llen lines ->
  slice lines i (if i + linesPerChunk >? llen lines then llen lines else i + linesPerChunk)
  = Ok (take (Z.to_nat linesPerChunk) (drop (Z.to_nat i) lines)).
Proof.
  intros Hlpc Hi. destruct (Z.gtb_spec (i + linesPerChunk) (llen lines)) as [Hlast|Hfull].
  - rewrite slice_ok by lia. f_equal.
    rewrite !take_ge; [reflexivity| |]; rewrite length_drop; unfold llen in *; lia.
  - rewrite slice_ok by lia. do 2 f_equal. lia.
Qed.

(** Without a shrink the chunks cover the filtered sequence: when no window
    is estimated above the ceiling, the loop from index [i] on emits the
    lines from [i] on, in order. *)
Lemma processChunks_covers (lines : list string) (linesPerChunk chunkCount : Z) :
  1 <= linesPerChunk ->
  (forall j, 0 <= j -> j * linesPerChunk < llen lines ->
     estimateTokens
       (Join (take (Z.to_nat linesPerChunk) (drop (Z.to_nat (j * linesPerChunk)) lines)) nl)
     <= maxTokensPerChunk) ->
  forall (fuel : nat) (j : Z) (st st' : run),
    0 <= j ->
    processChunks service fuel lines linesPerChunk chunkCount (j * linesPerChunk) st
    = (st', Ok tt) ->
    concat (emitted st')
    = (concat (emitted st) ++ drop (Z.to_nat (j * linesPerChunk)) lines)%list.
Proof.
  intros Hlpc Hfit. induction fuel as [|fuel IH]; intros j st st' Hj Hrun;
    [discriminate|].
  cbn [processChunks] in Hrun.
  destruct (Z.ltb_spec (j * linesPerChunk) (llen lines)) as [Hlt|Hge].
  - unfold chunkAt in Hrun. rewrite window_slice in Hrun by lia.
    cbn [mbind outcome_bind] in Hrun.
    destruct (Z.gtb_spec
                (estimateTokens
                   (Join (take (Z.to_nat linesPerChunk)
                            (drop (Z.to_nat (j * linesPerChunk)) lines)) nl))
                maxTokensPerChunk) as [Hbig|_].
    { specialize (Hfit j Hj Hlt). lia. }
    cbn [guarded] in Hrun. unfold int_div in Hrun.
    destruct (Z.eqb_spec linesPerChunk 0); [lia|]. cbn [guarded] in Hrun.
    replace (j * linesPerChunk + linesPerChunk) with ((j + 1) * linesPerChunk) in Hrun by lia.
    rewrite (IH (j + 1) _ st' ltac:(lia) Hrun).
    unfold afterChunk. cbn [emitted].
    rewrite concat_app. cbn [concat]. rewrite app_nil_r, <- app_assoc. f_equal.
    etransitivity; [|apply (take_drop (Z.to_nat linesPerChunk))].
    f_equal. rewrite drop_drop. f_equal. lia.
  - injection Hrun as <-. rewrite drop_ge, app_nil_r; [reflexivity|].
    unfold llen in Hge. lia.
Qed.

Lemma chunks_cover_without_shrink (lines : list string) (chunks : list (list string)) :
  (forall j, 0 <= j -> j * linesPerChunkOf lines < llen lines ->
     estimateTokens
       (Join (take (Z.to_nat (linesPerChunkOf lines))
                (drop (Z.to_nat (j * linesPerChunkOf lines)) lines)) nl)
     <= maxTokensPerChunk) ->
  chunksOf service now lines = Some chunks ->
  concat chunks = lines.
Proof.
  intros Hfit. rewrite chunksOf_runChunks. destruct lines as [|line lines]; [discriminate|].
  pose proof (linesPerChunkOf_bounds line lines) as Hlpc.
  unfold runChunks, chunkCountOf, int_div.
  destruct (Z.eqb_spec (linesPerChunkOf (line :: lines)) 0); [lia|]. cbn [guarded].
  match goal with
  | |- context [processChunks ?svc ?fuel ?l ?lpc ?cc 0 ?st] =>
      destruct (processChunks svc fuel l lpc cc 0 st) as [st' [[]| | |]] eqn:Hrun;
        try discriminate
  end.
  intros [= <-].
  change 0 with (0 * linesPerChunkOf (line :: lines)) in Hrun.
  assert (Hone : 1 <= linesPerChunkOf (line :: lines)) by lia.
  rewrite (processChunks_covers _ _ _ Hone Hfit _ 0 _ st' (Z.le_refl 0) Hrun).
  reflexivity.
Qed.

End ChunkerProperties.

(** A sequence of one line is one window, and the shrink step cannot take
    the line away. *)
Lemma chunkAt_single_line (line : string) : chunkAt [line] 1 0 = Ok [line].
Proof.
  unfold chunkAt. change (llen [line]) with 1.
  change (0 + 1 >? 1) with false. cbn iota.
  change (slice [line] 0 (0 + 1)) with (Ok [line]). cbn [mbind outcome_bind].
  change (Join [line] nl) with line.
  destruct (Z.gtb_spec (estimateTokens line) maxTokensPerChunk); [|reflexivity].
  pose proof (newEndOf_bounds 1 0 (0 + 1) (estimateTokens line) ltac:(lia)) as Hnew.
  replace (newEndOf 1 0 (0 + 1) (estimateTokens line)) with 1 by lia.
  reflexivity.
Qed.

Lemma estimateTokens_above_ceiling (text : string) :
  maxTokensPerChunk < estimateTokens text <-> 6004 <= len text.
Proof.
  unfold estimateTokens, maxTokensPerChunk. pose proof (len_nonneg text) as Hlen.
  rewrite Z.quot_div_nonneg by lia.
  pose proof (Z.div_mod (len text) 4 ltac:(lia)) as Hdiv.
  pose proof (Z.mod_pos_bound (len text) 4 ltac:(lia)) as Hmod.
  lia.
Qed.

Lemma chunksOf_single_line (service : nat -> string -> reply) (now line : string) :
  chunksOf service now [line] = Some [[line]].
Proof.
  rewrite chunksOf_runChunks.
  unfold runChunks. change (chunkCountOf [line]) with (Ok 1 : outcome Z).
  change (linesPerChunkOf [line]) with 1. cbn [guarded length processChunks].
  change (0 <? llen [line]) with true. cbn iota.
  rewrite (chunkAt_single_line line). cbn [guarded].
  change (int_div 0 1) with (Ok 0 : outcome Z). cbn [guarded].
  change (0 + 1 <? llen [line]) with false. cbn iota.
  reflexivity.
Qed.

(** C8, as amended.  A chunk can exceed the token ceiling after the shrink
    step.  A filtered sequence of one line is emitted as the chunk of that
    one line whatever its size, because a window is shrunk once and never
    below one line; the estimate of that chunk is above 1500 tokens exactly
    when the line has 6004 bytes or more, and a line of 6004 bytes is such
    a sequence. *)
Theorem oversized_line_is_emitted :
  (forall (service : nat -> string -> reply) (now line : string),
     chunksOf service now [line] = Some [[line]] /\
     (maxTokensPerChunk < estimateTokens (Join [line] nl) <-> 6004 <= len line)) /\
  (exists lines chunkLines,
     len (Join chunkLines nl) = 6004 /\
     maxTokensPerChunk < estimateTokens (Join chunkLines nl) /\
     forall (service : nat -> string -> reply) (now : string),
     exists chunks, chunksOf service now lines = Some chunks /\ In chunkLines chunks).
Proof.
  split.
  - intros service now line. split; [apply chunksOf_single_line|].
    change (Join [line] nl) with line. apply estimateTokens_above_ceiling.
  - exists [longLine], [longLine]. split; [vm_compute; reflexivity|].
    split; [vm_compute; reflexivity|].
    intros service now. exists [[longLine]].
    split; [apply chunksOf_single_line|now left].
Qed.

(** C8 as stated fails for a line of 6001 bytes: it is longer than 6000
    bytes and it is emitted as a chunk, but the estimate of that chunk is
    1500 tokens, which does not exceed the ceiling. *)
Lemma line_of_6001_bytes_stays_within_ceiling :
  6000 < len almostLongLine /\
  (forall (service : nat -> string -> reply) (now : string),
     chunksOf service now [almostLongLine] = Some [[almostLongLine]]) /\
  estimateTokens (Join [almostLongLine] nl) = 1500 /\
  (maxTokensPerChunk <? estimateTokens (Join [almostLongLine] nl)) = false.
Proof.
  split; [vm_compute; reflexivity|]. split; [|split; vm_compute; reflexivity].
  intros service now. apply chunksOf_single_line.
Qed.

Lemma chunkAt_twoLongLines : chunkAt twoLongLines 2 0 = Ok [rep (Z.to_nat 4000) "a"].
Proof. vm_compute. reflexivity. Qed.

(** C1 at a concrete input.  The window of the two lines is shrunk to one
    line, and the loop then moves on by the unshrunk step: the only chunk
    is the first line, and the second line is in no chunk. *)
Theorem shrunk_window_drops_lines (service : nat -> string -> reply) (now : string) :
  chunksOf service now twoLongLines = Some [[rep (Z.to_nat 4000) "a"]] /\
  concat [[rep (Z.to_nat 4000) "a"]] <> twoLongLines.
Proof.
  split.
  - rewrite chunksOf_runChunks. unfold runChunks.
    change (chunkCountOf twoLongLines) with (Ok 1 : outcome Z).
    change (linesPerChunkOf twoLongLines) with 2.
    cbn [guarded]. change (length twoLongLines) with 2%nat. cbn [processChunks].
    change (0 <? llen twoLongLines) with true. cbn iota.
    rewrite chunkAt_twoLongLines. cbn [guarded].
    change (int_div 0 2) with (Ok 0 : outcome Z). cbn [guarded].
    change (0 + 2 <? llen twoLongLines) with false. cbn iota.
    reflexivity.
  - intros Heq. apply (f_equal length) in Heq. discriminate.
Qed.

(** C4.  For a window of 30 lines whose estimate is above 1500 tokens, the
    float64 computation of the shrink step yields floor(30 * 1500 /
    estimate), and the shrunk window has that many lines, or one line when
    the floor is 0. *)
Theorem shrunk_window_size (lines : list string) (i : Z) :
  let window := take 30 (drop (Z.to_nat i) lines) in
  let estimated := estimateTokens (Join window nl) in
  let size := Z.max 1 (30 * maxTokensPerChunk / estimated) in
  0 <= i -> i + 30 <= llen lines ->
  maxTokensPerChunk < estimated < 2 ^ 63 ->
  reducedSize 30 estimated = 30 * maxTokensPerChunk / estimated /\
  newEndOf (llen lines) i (i + 30) estimated - i = size /\
  chunkAt lines 30 i = Ok (take (Z.to_nat size) (drop (Z.to_nat i) lines)).
Proof.
  intros window estimated size Hi Hend Hest.
  pose proof (reducedSize_30 estimated Hest) as Hreduced.
  assert (Hquot : 0 <= 30 * maxTokensPerChunk / estimated < 30).
  { unfold maxTokensPerChunk in *. split.
    - apply Z.div_pos; lia.
    - apply Z.div_lt_upper_bound; lia. }
  assert (Hnew : newEndOf (llen lines) i (i + 30) estimated - i = size).
  { unfold newEndOf. replace (i + 30 - i) with 30 by lia. rewrite Hreduced.
    subst size.
    destruct (Z.leb_spec (i + 30 * maxTokensPerChunk / estimated) i);
      match goal with |- context [?a >? ?b] => destruct (Z.gtb_spec a b) end; lia. }
  split; [exact Hreduced|]. split; [exact Hnew|].
  unfold chunkAt.
  destruct (Z.gtb_spec (i + 30) (llen lines)); [lia|].
  rewrite slice_ok by lia. cbn [mbind outcome_bind].
  replace (Z.to_nat (i + 30 - i)) with 30%nat by lia.
  fold window. fold estimated.
  destruct (Z.gtb_spec estimated maxTokensPerChunk); [|lia].
  rewrite slice_ok by lia. now rewrite Hnew.
Qed.

Lemma shrunk_window_size_witness :
  chunkAt thirtyLongLines 30 0 = Ok (take 19 thirtyLongLines).
Proof.
  refine (proj2 (proj2 (shrunk_window_size thirtyLongLines 0 _ _ _))).
  - lia.
  - vm_compute. discriminate.
  - split; vm_compute; reflexivity.
Defined.

(** * Further properties of the two programs *)

(** ** The shrink step for every window size *)

(** [float64(n)] for a small positive [int]: exact, with a mantissa of 53
    digits. *)
Lemma of_int_exact (n : Z) :
  0 < n < 2 ^ 52 ->
  exists m e,
    Float64.of_int n = S754_finite false m e /\
    2 ^ 52 <= Zpos m < 2 ^ 53 /\
    -52 <= e <= -1 /\
    Zpos m = n * 2 ^ (- e).
Proof.
  intros Hn. destruct n as [|p|p]; try lia.
  pose proof (digits2_pos_bounds p) as Hp.
  set (d := Zpos (digits2_pos p)) in *.
  assert (Hd : 1 <= d <= 52).
  { split; [subst d; lia|].
    destruct (Z.le_gt_cases d 52) as [|Hbig]; [assumption|].
    assert (2 ^ 52 <= 2 ^ (d - 1)) by (apply Z.pow_le_mono_r; lia). lia. }
  unfold Float64.of_int, binary_normalize, binary_round, shl_align. fold d.
  unfold Float64.prec, Float64.emax.
  rewrite Z.add_0_r, fexp_normal, Z.sub_0_r by lia.
  destruct (d - 53) as [|k|k] eqn:Hk; try lia.
  assert (Hkd : Zpos k = 53 - d) by lia.
  assert (Hmz : Zpos (Pos.iter xO p k) = Zpos p * 2 ^ (53 - d)).
  { rewrite pos_iter_xO. now rewrite Hkd. }
  assert (Hsplit : 2 ^ 53 = 2 ^ d * 2 ^ (53 - d)).
  { rewrite <- Z.pow_add_r by lia. f_equal. lia. }
  assert (Hsplit' : 2 ^ 52 = 2 ^ (d - 1) * 2 ^ (53 - d)).
  { rewrite <- Z.pow_add_r by lia. f_equal. lia. }
  assert (Hshift : 0 < 2 ^ (53 - d)) by (apply Z.pow_pos_nonneg; lia).
  assert (Hmzb : 2 ^ 52 <= Zpos (Pos.iter xO p k) < 2 ^ 53).
  { rewrite Hmz, Hsplit, Hsplit'. split.
    - apply Z.mul_le_mono_nonneg_r; lia.
    - apply Z.mul_lt_mono_pos_r; lia. }
  pose proof (digits2_pos_unique (Pos.iter xO p k) 53 Hmzb) as Hdz.
  destruct (round_aux_bound (Pos.iter xO p k) (Z.neg k) loc_Exact)
    as [m [e [Heq [Hm [He [_ [_ Hexact]]]]]]]; rewrite ?Hdz; try lia.
  destruct (Hexact Hdz eq_refl) as [-> ->].
  eexists _, _. split; [exact Heq|]. split; [exact Hmzb|]. split; [lia|].
  rewrite Hmz. do 2 f_equal. lia.
Qed.

(** The product of two normal numbers: the product of the mantissas,
    rounded to 53 digits. *)
Lemma mul_shape (mx : positive) (ex : Z) (mq : positive) (eqt : Z) :
  2 ^ 52 <= Zpos mx < 2 ^ 53 -> 2 ^ 52 <= Zpos mq < 2 ^ 53 ->
  -200 <= ex <= 200 -> -200 <= eqt <= 200 ->
  exists mp ep u h,
    Float64.mul (S754_finite false mx ex) (S754_finite false mq eqt)
    = S754_finite false mp ep /\
    2 ^ 52 <= Zpos mp < 2 ^ 53 /\
    ep = ex + eqt + h /\ 0 <= h /\
    0 < u /\ 2 ^ h <= 2 * u /\
    2 ^ 52 * u <= Zpos mx * Zpos mq /\
    Zpos mp * 2 ^ h <= Zpos mx * Zpos mq + u /\
    Zpos mx * Zpos mq < (Zpos mp + 1) * 2 ^ h.
Proof.
  intros Hmx Hmq Hex Heq.
  unfold Float64.mul, Float64.prec, Float64.emax, SFmul. cbn [xorb].
  assert (HM : Zpos (mx * mq) = Zpos mx * Zpos mq) by apply Pos2Z.inj_mul.
  assert (HMb : 2 ^ 104 <= Zpos (mx * mq) < 2 ^ 106).
  { rewrite HM. change (2 ^ 104) with (2 ^ 52 * 2 ^ 52).
    change (2 ^ 106) with (2 ^ 53 * 2 ^ 53). split.
    - apply Z.mul_le_mono_nonneg; lia.
    - apply Z.mul_lt_mono_nonneg; lia. }
  pose proof (digits2_pos_range _ 104 106 ltac:(lia) HMb) as HdM.
  pose proof (digits2_pos_bounds (mx * mq)) as HMd.
  destruct (round_aux_bound (mx * mq) (ex + eqt) loc_Exact)
    as [mp [ep [Hres [Hmp [He [Hup [Hdown _]]]]]]]; try lia.
  set (dM := Zpos (digits2_pos (mx * mq))) in *.
  exists mp, ep, (2 ^ (dM - 53)), (ep - (ex + eqt)).
  split; [exact Hres|]. split; [exact Hmp|]. split; [lia|]. split; [lia|].
  split; [apply Z.pow_pos_nonneg; lia|]. split.
  { replace (2 * 2 ^ (dM - 53)) with (2 ^ (dM - 53 + 1)).
    - apply Z.pow_le_mono_r; lia.
    - rewrite Z.pow_add_r by lia. change (2 ^ 1) with 2. lia. }
  rewrite <- HM. split; [|split; [exact Hup|exact Hdown]].
  rewrite <- Z.pow_add_r by lia.
  replace (52 + (dM - 53)) with (dM - 1) by lia. lia.
Qed.

(** The shrink step for a window of n lines and a normal y = my * 2^ey:
    when k <= 1500 n / y < k + 1 with a margin of 1 / y on both sides,
    [int(float64(n) * (1500.0 / y))] is k. *)
Lemma shrink_floor_any (mn : positive) (en n : Z) (my : positive) (ey k : Z) :
  2 ^ 52 <= Zpos mn < 2 ^ 53 -> -52 <= en <= -1 -> 1 <= n <= 30 ->
  Zpos mn = n * 2 ^ (- en) ->
  2 ^ 52 <= Zpos my < 2 ^ 53 -> -100 <= ey <= 11 -> 0 <= k <= n - 1 ->
  (1500 * n + 1) * 2 ^ 100 <= (k + 1) * (Zpos my * 2 ^ (ey + 100)) ->
  k * (Zpos my * 2 ^ (ey + 100)) <= (1500 * n - 1) * 2 ^ 100 ->
  Float64.to_int
    (Float64.mul (S754_finite false mn en)
       (Float64.div (Float64.of_int 1500) (S754_finite false my ey))) = k.
Proof.
  intros Hmn Hen Hn Hmnv Hmy Hey Hk Habove Hbelow.
  assert (Hen' : en <= -48).
  { destruct (Z.le_gt_cases en (-48)) as [|Hgt]; [assumption|]. exfalso.
    assert (2 ^ (- en) <= 2 ^ 47) by (apply Z.pow_le_mono_r; lia).
    assert (n * 2 ^ (- en) <= 30 * 2 ^ 47) by (apply Z.mul_le_mono_nonneg; lia).
    lia. }
  destruct (div_1500_shape my ey Hmy Hey)
    as [mq [eqt [g [-> [Heq [Hg [Hmq [HQu HQl]]]]]]]].
  destruct (mul_shape mn en mq eqt Hmn Hmq ltac:(lia) ltac:(lia))
    as [mp [ep [u [h [-> [Hmp [Hep [Hh [Hu [Hhu [HuM [Hpu Hpl]]]]]]]]]]]].
  set (A := Zpos my) in *. set (Q := 1500 * 2 ^ 95 / A) in *.
  set (N := Zpos mn) in *. set (E := 2 ^ (- en)) in *.
  assert (HE : 0 < E) by (apply Z.pow_pos_nonneg; lia).
  assert (HQA : A * Q <= 1500 * 2 ^ 95) by (apply Z.mul_div_le; lia).
  assert (HQA' : 1500 * 2 ^ 95 < A * Z.succ Q) by (apply Z.mul_succ_div_gt; lia).
  assert (HG : 1 <= 2 ^ g <= 4).
  { split.
    - assert (0 < 2 ^ g) by (apply Z.pow_pos_nonneg; lia). lia.
    - change 4 with (2 ^ 2). apply Z.pow_le_mono_r; lia. }
  assert (HH : 0 < 2 ^ h) by (apply Z.pow_pos_nonneg; lia).
  assert (HY : 32 * (A * 2 ^ (95 + ey - en)) = A * 2 ^ (ey + 100) * E).
  { assert (Hp : 2 ^ (ey + 100) * E = 32 * 2 ^ (95 + ey - en)).
    { subst E. change 32 with (2 ^ 5). rewrite <- !Z.pow_add_r by lia.
      f_equal. lia. }
    rewrite <- Z.mul_assoc, Hp. ring. }
  set (G := 2 ^ g) in *. set (H := 2 ^ h) in *.
  set (Y := A * 2 ^ (ey + 100)) in *. set (W := 2 ^ (95 + ey - en)) in *.
  assert (HW : 0 < W) by (apply Z.pow_pos_nonneg; lia).
  set (M := N * Zpos mq) in *.
  set (R := Zpos mp * H * G).
  assert (HMG : M * G = N * (Zpos mq * G)) by (subst M; ring).
  assert (HM0 : 0 <= M) by (subst M; lia).
  (* the rounded product is below (k + 1) * W *)
  assert (Hupper : R < (k + 1) * W).
  { destruct (Z.lt_ge_cases R ((k + 1) * W)) as [|Hge]; [assumption|]. exfalso.
    assert (H1 : 2 ^ 52 * (Zpos mp * H) <= (2 ^ 52 + 1) * M) by lia.
    assert (H2 : 2 ^ 52 * R <= (2 ^ 52 + 1) * (M * G)).
    { subst R. replace (2 ^ 52 * (Zpos mp * H * G)) with (2 ^ 52 * (Zpos mp * H) * G) by ring.
      replace ((2 ^ 52 + 1) * (M * G)) with ((2 ^ 52 + 1) * M * G) by ring.
      apply Z.mul_le_mono_nonneg_r; lia. }
    assert (H3 : M * G <= N * (Q + 2)).
    { rewrite HMG. apply Z.mul_le_mono_nonneg_l; lia. }
    assert (H4 : A * (Q + 2) <= 1500 * 2 ^ 95 + 2 ^ 54) by lia.
    assert (H5 : A * (2 ^ 52 * R) <= (2 ^ 52 + 1) * N * (1500 * 2 ^ 95 + 2 ^ 54)).
    { transitivity (A * ((2 ^ 52 + 1) * (N * (Q + 2)))).
      - apply Z.mul_le_mono_nonneg_l; [lia|].
        transitivity ((2 ^ 52 + 1) * (M * G)); [exact H2|].
        apply Z.mul_le_mono_nonneg_l; lia.
      - replace (A * ((2 ^ 52 + 1) * (N * (Q + 2))))
          with ((2 ^ 52 + 1) * N * (A * (Q + 2))) by ring.
        apply Z.mul_le_mono_nonneg_l; lia. }
    assert (H6 : 2 ^ 52 * ((1500 * n + 1) * 2 ^ 100) * E <= 32 * (A * (2 ^ 52 * R))).
    { transitivity (2 ^ 52 * ((k + 1) * Y) * E).
      - apply Z.mul_le_mono_nonneg_r; [lia|].
        apply Z.mul_le_mono_nonneg_l; lia.
      - replace (2 ^ 52 * ((k + 1) * Y) * E) with (2 ^ 52 * (k + 1) * (Y * E)) by ring.
        rewrite <- HY.
        replace (2 ^ 52 * (k + 1) * (32 * (A * W)))
          with (32 * (A * (2 ^ 52 * ((k + 1) * W)))) by ring.
        apply Z.mul_le_mono_nonneg_l; [lia|].
        apply Z.mul_le_mono_nonneg_l; [lia|].
        apply Z.mul_le_mono_nonneg_l; lia. }
    assert (H7 : 2 ^ 52 * ((1500 * n + 1) * 2 ^ 100) * E
                 <= 32 * ((2 ^ 52 + 1) * n * (1500 * 2 ^ 95 + 2 ^ 54)) * E).
    { transitivity (32 * (A * (2 ^ 52 * R))); [exact H6|].
      replace (32 * ((2 ^ 52 + 1) * n * (1500 * 2 ^ 95 + 2 ^ 54)) * E)
        with (32 * ((2 ^ 52 + 1) * (n * E) * (1500 * 2 ^ 95 + 2 ^ 54))) by ring.
      rewrite <- Hmnv. apply Z.mul_le_mono_nonneg_l; lia. }
    apply Z.mul_le_mono_pos_r in H7; lia. }
  (* and at least k * W *)
  assert (Hlower : k * W <= R).
  { destruct (Z.le_gt_cases (k * W) R) as [|Hlt]; [assumption|]. exfalso.
    assert (H1 : (2 ^ 51 - 1) * M <= 2 ^ 51 * (Zpos mp * H)) by lia.
    assert (H2 : (2 ^ 51 - 1) * (M * G) <= 2 ^ 51 * R).
    { subst R. replace (2 ^ 51 * (Zpos mp * H * G)) with (2 ^ 51 * (Zpos mp * H) * G) by ring.
      replace ((2 ^ 51 - 1) * (M * G)) with ((2 ^ 51 - 1) * M * G) by ring.
      apply Z.mul_le_mono_nonneg_r; lia. }
    assert (H3 : N * (Q - 3) <= M * G).
    { rewrite HMG. apply Z.mul_le_mono_nonneg_l; lia. }
    assert (H4 : 1500 * 2 ^ 95 - 2 ^ 55 <= A * (Q - 3)) by lia.
    assert (H5 : (2 ^ 51 - 1) * N * (1500 * 2 ^ 95 - 2 ^ 55) <= A * (2 ^ 51 * R)).
    { transitivity (A * ((2 ^ 51 - 1) * (N * (Q - 3)))).
      - replace (A * ((2 ^ 51 - 1) * (N * (Q - 3))))
          with ((2 ^ 51 - 1) * N * (A * (Q - 3))) by ring.
        apply Z.mul_le_mono_nonneg_l; lia.
      - apply Z.mul_le_mono_nonneg_l; [lia|].
        transitivity ((2 ^ 51 - 1) * (M * G)); [|exact H2].
        apply Z.mul_le_mono_nonneg_l; lia. }
    assert (H6 : 32 * (A * (2 ^ 51 * R)) <= 2 ^ 51 * ((1500 * n - 1) * 2 ^ 100) * E).
    { transitivity (2 ^ 51 * (k * Y) * E).
      - replace (2 ^ 51 * (k * Y) * E) with (2 ^ 51 * k * (Y * E)) by ring.
        rewrite <- HY.
        replace (2 ^ 51 * k * (32 * (A * W))) with (32 * (A * (2 ^ 51 * (k * W)))) by ring.
        apply Z.mul_le_mono_nonneg_l; [lia|].
        apply Z.mul_le_mono_nonneg_l; [lia|].
        apply Z.mul_le_mono_nonneg_l; lia.
      - apply Z.mul_le_mono_nonneg_r; [lia|].
        apply Z.mul_le_mono_nonneg_l; lia. }
    assert (H7 : 32 * ((2 ^ 51 - 1) * n * (1500 * 2 ^ 95 - 2 ^ 55)) * E
                 <= 2 ^ 51 * ((1500 * n - 1) * 2 ^ 100) * E).
    { transitivity (32 * (A * (2 ^ 51 * R))); [|exact H6].
      replace (32 * ((2 ^ 51 - 1) * n * (1500 * 2 ^ 95 - 2 ^ 55)) * E)
        with (32 * ((2 ^ 51 - 1) * (n * E) * (1500 * 2 ^ 95 - 2 ^ 55))) by ring.
      rewrite <- Hmnv. apply Z.mul_le_mono_nonneg_l; lia. }
    apply Z.mul_le_mono_pos_r in H7; lia. }
  (* so the exponent is negative and the integer part is k *)
  subst ep.
  assert (Hneg : en + eqt + h < 0).
  { destruct (Z.lt_ge_cases (en + eqt + h) 0) as [|Hge]; [assumption|]. exfalso.
    assert (HWle : W <= H * G).
    { subst W H G. rewrite <- Z.pow_add_r by lia. apply Z.pow_le_mono_r; lia. }
    assert (30 * W <= Zpos mp * (H * G)) by (apply Z.mul_le_mono_nonneg; lia).
    assert ((k + 1) * W <= 30 * W) by (apply Z.mul_le_mono_nonneg_r; lia).
    subst R. lia. }
  destruct (en + eqt + h) as [|pe|pe] eqn:Hpe; try lia.
  assert (HWsplit : W = 2 ^ Zpos pe * (H * G)).
  { subst W H G. rewrite <- !Z.pow_add_r by lia. f_equal. lia. }
  assert (HHG : 0 < H * G) by lia.
  assert (Hfloor : Zpos mp / 2 ^ Zpos pe = k).
  { symmetry. apply Z.div_unique with (Zpos mp - k * 2 ^ Zpos pe); [|ring].
    left. split.
    - assert (k * 2 ^ Zpos pe * (H * G) <= Zpos mp * (H * G)).
      { replace (k * 2 ^ Zpos pe * (H * G)) with (k * W) by (rewrite HWsplit; ring).
        subst R. lia. }
      assert (k * 2 ^ Zpos pe <= Zpos mp) by (apply Z.mul_le_mono_pos_r with (H * G); lia).
      lia.
    - assert (Zpos mp * (H * G) < (k + 1) * 2 ^ Zpos pe * (H * G)).
      { replace ((k + 1) * 2 ^ Zpos pe * (H * G)) with ((k + 1) * W) by (rewrite HWsplit; ring).
        subst R. lia. }
      assert (Zpos mp < (k + 1) * 2 ^ Zpos pe) by (apply Z.mul_lt_mono_pos_r with (H * G); lia).
      lia. }
  unfold Float64.to_int. cbv beta iota zeta. rewrite Hfloor. unfold Float64.min_int64.
  destruct (Z.leb_spec (- 2 ^ 63) k); [|lia].
  destruct (Z.ltb_spec k (2 ^ 63)); [reflexivity|lia].
Qed.

(** The window sizes and quotients at which n * 1500 / estimate is an
    integer: there the rounded product is evaluated. *)
Lemma exact_shrinks_agree :
  forallb (fun n =>
    forallb (fun k =>
      if (1500 * n) mod k =? 0
      then reducedSize n (1500 * n / k)
           =? k - (if roundedDown n (1500 * n / k) then 1 else 0)
      else true)
      (map Z.of_nat (seq 1 (Z.to_nat n - 1))))
    (map Z.of_nat (seq 1 30)) = true.
Proof. vm_compute. reflexivity. Qed.

(** The float64 computation of the shrink step for every window of up to 30
    lines: the integer quotient, but for the two exceptions. *)
Lemma reducedSize_any (n estimated : Z) :
  1 <= n <= 30 -> maxTokensPerChunk < estimated < 2 ^ 63 ->
  reducedSize n estimated
  = n * maxTokensPerChunk / estimated - (if roundedDown n estimated then 1 else 0).
Proof.
  unfold maxTokensPerChunk. intros Hn Hest.
  replace (n * 1500) with (1500 * n) by ring.
  pose proof (Z.mul_div_le (1500 * n) estimated ltac:(lia)) as Hle.
  pose proof (Z.mul_succ_div_gt (1500 * n) estimated ltac:(lia)) as Hgt.
  assert (Hk : 0 <= 1500 * n / estimated <= n - 1).
  { split; [apply Z.div_pos; lia|].
    assert (1500 * n / estimated < n) by (apply Z.div_lt_upper_bound; nia). lia. }
  set (k := 1500 * n / estimated) in *.
  destruct (Z.eq_dec (estimated * k) (1500 * n)) as [Hexact|Hinexact].
  - assert (Hk1 : 1 <= k) by nia.
    pose proof exact_shrinks_agree as Hall.
    rewrite forallb_forall in Hall.
    assert (Hin : In n (map Z.of_nat (seq 1 30))).
    { apply in_map_iff. exists (Z.to_nat n). split; [lia|]. apply in_seq. lia. }
    specialize (Hall n Hin). cbv beta in Hall. rewrite forallb_forall in Hall.
    assert (Hink : In k (map Z.of_nat (seq 1 (Z.to_nat n - 1)))).
    { apply in_map_iff. exists (Z.to_nat k). split; [lia|]. apply in_seq. lia. }
    specialize (Hall k Hink). cbv beta in Hall.
    rewrite <- Hexact in Hall.
    rewrite Z.mod_mul, Z.div_mul in Hall by lia.
    change (0 =? 0) with true in Hall. cbv iota in Hall.
    now apply Z.eqb_eq in Hall.
  - assert (Hnot : roundedDown n estimated = false).
    { unfold roundedDown.
      destruct (Z.eqb_spec n 22); destruct (Z.eqb_spec estimated 2200);
        destruct (Z.eqb_spec n 26); destruct (Z.eqb_spec estimated 2600);
        try reflexivity; try lia; exfalso; apply Hinexact; subst k n estimated;
        reflexivity. }
    rewrite Hnot, Z.sub_0_r.
    destruct (of_int_exact n ltac:(lia)) as [mn [en [Hnf [Hmn [Hen Hmnv]]]]].
    destruct (of_int_normal estimated Hest)
      as [my [ey [Hy [Hmy [Hey [Hsmall Hlarge]]]]]].
    unfold reducedSize, maxTokensPerChunk. rewrite Hy, Hnf.
    assert (Hpow : 0 < 2 ^ 100) by (apply Z.pow_pos_nonneg; lia).
    apply shrink_floor_any with (n := n); try assumption.
    + destruct (Z.le_gt_cases estimated 45000) as [Hlow|Hhigh].
      * rewrite (Hsmall Hlow).
        replace ((k + 1) * (estimated * 2 ^ 100)) with (estimated * Z.succ k * 2 ^ 100) by ring.
        apply Z.mul_le_mono_nonneg_r; lia.
      * transitivity (1 * (Zpos my * 2 ^ (ey + 100))); [lia|].
        apply Z.mul_le_mono_nonneg_r; lia.
    + destruct (Z.le_gt_cases estimated 45000) as [Hlow|Hhigh].
      * rewrite (Hsmall Hlow).
        replace (k * (estimated * 2 ^ 100)) with (estimated * k * 2 ^ 100) by ring.
        apply Z.mul_le_mono_nonneg_r; lia.
      * assert (k = 0) by (subst k; apply Z.div_small; lia). subst k. lia.
Qed.

(** ** Every chunk of a run *)

Lemma windowAt_length (lines : list string) (linesPerChunk i : Z) :
  1 <= linesPerChunk -> 0 <= i < llen lines ->
  llen (windowAt lines linesPerChunk i) = Z.min linesPerChunk (llen lines - i).
Proof.
  intros Hlpc Hi. unfold windowAt, llen in *. rewrite length_take, length_drop. lia.
Qed.

(** The chunk of a window is its first [chunkSizeAt] lines. *)
Lemma chunkAt_shape (lines : list string) (linesPerChunk i : Z) :
  1 <= linesPerChunk <= 30 -> 0 <= i < llen lines ->
  estimateTokens (Join (windowAt lines linesPerChunk i) nl) < 2 ^ 63 ->
  chunkAt lines linesPerChunk i
  = Ok (take (Z.to_nat (chunkSizeAt lines linesPerChunk i)) (drop (Z.to_nat i) lines)) /\
  1 <= chunkSizeAt lines linesPerChunk i <= llen (windowAt lines linesPerChunk i) /\
  (shrinksAt lines linesPerChunk i = true ->
   chunkSizeAt lines linesPerChunk i < llen (windowAt lines linesPerChunk i)) /\
  (shrinksAt lines linesPerChunk i = false ->
   chunkSizeAt lines linesPerChunk i = llen (windowAt lines linesPerChunk i)).
Proof.
  intros Hlpc Hi Hint.
  pose proof (windowAt_length lines linesPerChunk i ltac:(lia) Hi) as Hn.
  unfold chunkAt, chunkSizeAt, shrinksAt.
  rewrite window_slice by lia. cbn [mbind outcome_bind]. cbv zeta.
  fold (windowAt lines linesPerChunk i).
  set (window := windowAt lines linesPerChunk i) in *.
  set (estimated := estimateTokens (Join window nl)) in *.
  set (n := llen window) in *.
  assert (Hend : (if i + linesPerChunk >? llen lines then llen lines else i + linesPerChunk)
                 = i + n).
  { destruct (Z.gtb_spec (i + linesPerChunk) (llen lines)); lia. }
  rewrite Hend.
  destruct (Z.gtb_spec estimated maxTokensPerChunk) as [Hbig|Hfit].
  - pose proof (reducedSize_any n estimated ltac:(lia) ltac:(lia)) as Hred.
    assert (Hq : 0 <= n * maxTokensPerChunk / estimated <= n - 1).
    { unfold maxTokensPerChunk in *. split; [apply Z.div_pos; lia|].
      assert (n * 1500 / estimated < n) by (apply Z.div_lt_upper_bound; nia). lia. }
    set (r := n * maxTokensPerChunk / estimated
              - (if roundedDown n estimated then 1 else 0)) in *.
    assert (Hr : r <= n - 1) by (subst r; destruct (roundedDown n estimated); lia).
    assert (Hnew : newEndOf (llen lines) i (i + n) estimated = i + Z.max 1 r).
    { unfold newEndOf. replace (i + n - i) with n by lia. rewrite Hred.
      destruct (Z.leb_spec (i + r) i);
        match goal with |- context [?a >? ?b] => destruct (Z.gtb_spec a b) end; lia. }
    rewrite Hnew, slice_ok by lia.
    replace (i + Z.max 1 r - i) with (Z.max 1 r) by lia.
    split; [reflexivity|]. split; [lia|]. cbn [andb]. split.
    + intros H2. apply Z.leb_le in H2. lia.
    + intros H2. apply Z.leb_gt in H2. lia.
  - split.
    + f_equal. subst n window. unfold windowAt, llen.
      rewrite Nat2Z.id, length_take.
      destruct (Nat.le_gt_cases (Z.to_nat linesPerChunk)
                  (length (drop (Z.to_nat i) lines))) as [Hle|Hgt].
      * now rewrite Nat.min_l by exact Hle.
      * rewrite Nat.min_r by lia. rewrite !take_ge by lia. reflexivity.
    + split; [lia|]. cbn [andb]. split; [discriminate|reflexivity].
Qed.

Lemma len_app_s (a b : string) : len (a +:+ b) = len a + len b.
Proof. unfold len. rewrite app_length_s. lia. Qed.

Lemma len_Join (elems : list string) : len (Join elems nl) <= totalLen elems + llen elems.
Proof.
  unfold Join. induction elems as [|x [|y rest] IH].
  - vm_compute. discriminate.
  - cbn [String.concat]. rewrite totalLen_cons. unfold llen. cbn [length totalLen fold_right].
    lia.
  - change (String.concat nl (x :: y :: rest))
      with (x +:+ nl +:+ String.concat nl (y :: rest)).
    rewrite !len_app_s, (totalLen_cons x). change (len nl) with 1.
    unfold llen in *. cbn [length] in *. lia.
Qed.

Lemma totalLen_app (a b : list string) : totalLen (a ++ b)%list = totalLen a + totalLen b.
Proof.
  induction a as [|x a IH]; [reflexivity|].
  change ((x :: a) ++ b)%list with (x :: (a ++ b))%list.
  rewrite !totalLen_cons, IH. lia.
Qed.

Lemma totalLen_window (lines : list string) (linesPerChunk i : Z) :
  totalLen (windowAt lines linesPerChunk i) + llen (windowAt lines linesPerChunk i)
  <= totalLen lines + llen lines.
Proof.
  unfold windowAt.
  set (a := Z.to_nat linesPerChunk). set (b := Z.to_nat i).
  rewrite <- (take_drop b lines) at 3 4.
  rewrite <- (take_drop a (drop b lines)) at 3 4.
  unfold llen. rewrite !totalLen_app, !length_app.
  pose proof (totalLen_nonneg (take b lines)).
  pose proof (totalLen_nonneg (drop a (drop b lines))). lia.
Qed.

(** The estimate of every window is an [int] when the kept lines fit into
    memory. *)
Lemma window_estimate_int (lines : list string) (linesPerChunk i : Z) :
  totalLen lines + llen lines < 2 ^ 63 ->
  estimateTokens (Join (windowAt lines linesPerChunk i) nl) < 2 ^ 63.
Proof.
  intros Hfits. unfold estimateTokens.
  pose proof (len_Join (windowAt lines linesPerChunk i)) as Hjoin.
  pose proof (totalLen_window lines linesPerChunk i) as Hwin.
  pose proof (len_nonneg (Join (windowAt lines linesPerChunk i) nl)) as Hpos.
  rewrite Z.quot_div_nonneg by lia.
  assert (len (Join (windowAt lines linesPerChunk i) nl) / 4
          <= len (Join (windowAt lines linesPerChunk i) nl)).
  { apply Z.div_le_upper_bound; lia. }
  lia.
Qed.

Lemma window_count (linesPerChunk total j : Z) :
  1 <= linesPerChunk -> 0 <= j ->
  j * linesPerChunk < total <-> j < (total + linesPerChunk - 1) / linesPerChunk.
Proof.
  intros Hlpc Hj. split.
  - intros Hlt.
    assert (j + 1 <= (total + linesPerChunk - 1) / linesPerChunk); [|lia].
    apply Z.div_le_lower_bound; lia.
  - intros Hlt.
    pose proof (Z.mul_div_le (total + linesPerChunk - 1) linesPerChunk ltac:(lia)).
    nia.
Qed.

Section ChunkSequence.

Variable service : nat -> string -> reply.
Variable now : string.

(** The loop from the j-th window on: it comes to a regular end, and it has
    sent one chunk, recorded one result and written one checkpoint for
    every window that was left. *)
Lemma processChunks_counts (lines : list string) (linesPerChunk chunkCount : Z) :
  1 <= linesPerChunk ->
  forall (fuel : nat) (j : Z) (st : run),
    0 <= j -> (0 < fuel)%nat -> llen lines - j * linesPerChunk < Z.of_nat fuel ->
    let left := Z.max 0 ((llen lines + linesPerChunk - 1) / linesPerChunk - j) in
    exists st',
      processChunks service fuel lines linesPerChunk chunkCount (j * linesPerChunk) st
      = (st', Ok tt) /\
      llen (emitted st') = llen (emitted st) + left /\
      llen (written st') = llen (written st) + left /\
      llen (successfulAnalyses st') + llen (errorMessages st')
      = llen (successfulAnalyses st) + llen (errorMessages st) + left.
Proof.
  intros Hlpc. induction fuel as [|fuel IH]; intros j st Hj Hpos Hfuel left; [lia|].
  cbn [processChunks]. destruct (Z.ltb_spec (j * linesPerChunk) (llen lines)) as [Hlt|Hge].
  - destruct (chunkAt_ok lines linesPerChunk (j * linesPerChunk) Hlpc ltac:(lia))
      as [chunkLines [-> Hne]].
    cbn [guarded]. unfold int_div.
    destruct (Z.eqb_spec linesPerChunk 0); [lia|]. cbn [guarded].
    match goal with
    | |- context [afterChunk ?svc ?s ?c ?label] => set (st1 := afterChunk svc s c label)
    end.
    replace (j * linesPerChunk + linesPerChunk) with ((j + 1) * linesPerChunk) by lia.
    destruct (IH (j + 1) st1 ltac:(lia) ltac:(lia) ltac:(lia)) as [st' [Hrun Hcount]].
    exists st'. split; [exact Hrun|].
    assert (Hleft : Z.max 0 ((llen lines + linesPerChunk - 1) / linesPerChunk - (j + 1)) + 1
                    = left).
    { apply (window_count linesPerChunk (llen lines) j Hlpc Hj) in Hlt. subst left. lia. }
    cbv zeta in Hcount. destruct Hcount as [Hem [Hwr Hres]].
    assert (Hst1 : llen (emitted st1) = llen (emitted st) + 1 /\
                   llen (written st1) = llen (written st) + 1 /\
                   llen (successfulAnalyses st1) + llen (errorMessages st1)
                   = llen (successfulAnalyses st) + llen (errorMessages st) + 1).
    { subst st1. unfold afterChunk, llen.
      cbn [emitted written successfulAnalyses errorMessages].
      match goal with |- context [snd ?r] => destruct (snd r) end;
        rewrite !length_app; cbn [length]; lia. }
    lia.
  - exists st. split; [reflexivity|].
    assert (left = 0); [|lia].
    subst left.
    destruct (Z.lt_ge_cases j ((llen lines + linesPerChunk - 1) / linesPerChunk)) as [Hlt|];
      [|lia].
    apply (window_count linesPerChunk (llen lines) j Hlpc Hj) in Hlt. lia.
Qed.

(** The loop from the j-th window on sends the chunk of every window that is
    left, in order. *)
Lemma processChunks_shape (lines : list string) (linesPerChunk chunkCount : Z) :
  1 <= linesPerChunk <= 30 -> totalLen lines + llen lines < 2 ^ 63 ->
  forall (fuel : nat) (j : Z) (st : run),
    0 <= j -> (0 < fuel)%nat -> llen lines - j * linesPerChunk < Z.of_nat fuel ->
    exists st',
      processChunks service fuel lines linesPerChunk chunkCount (j * linesPerChunk) st
      = (st', Ok tt) /\
      emitted st'
      = (emitted st ++
         map (expectedChunk lines linesPerChunk)
           (seqZ j ((llen lines + linesPerChunk - 1) / linesPerChunk - j)))%list.
Proof.
  intros Hlpc Hfits. induction fuel as [|fuel IH]; intros j st Hj Hpos Hfuel; [lia|].
  cbn [processChunks]. destruct (Z.ltb_spec (j * linesPerChunk) (llen lines)) as [Hlt|Hge].
  - destruct (chunkAt_shape lines linesPerChunk (j * linesPerChunk) Hlpc ltac:(lia)
                (window_estimate_int lines linesPerChunk (j * linesPerChunk) Hfits))
      as [-> _].
    cbn [guarded]. unfold int_div.
    destruct (Z.eqb_spec linesPerChunk 0); [lia|]. cbn [guarded].
    match goal with
    | |- context [afterChunk ?svc ?s ?c ?label] => set (st1 := afterChunk svc s c label)
    end.
    replace (j * linesPerChunk + linesPerChunk) with ((j + 1) * linesPerChunk) by lia.
    destruct (IH (j + 1) st1 ltac:(lia) ltac:(lia) ltac:(lia)) as [st' [Hrun Hem]].
    exists st'. split; [exact Hrun|]. rewrite Hem.
    apply (window_count linesPerChunk (llen lines) j ltac:(lia) Hj) in Hlt.
    rewrite (seqZ_cons j) by lia. cbn [map].
    replace (Z.succ j) with (j + 1) by lia.
    replace (Z.pred ((llen lines + linesPerChunk - 1) / linesPerChunk - j))
      with ((llen lines + linesPerChunk - 1) / linesPerChunk - (j + 1)) by lia.
    subst st1. unfold afterChunk. cbn [emitted]. rewrite <- app_assoc. reflexivity.
  - exists st. split; [reflexivity|].
    rewrite seqZ_nil; [now rewrite app_nil_r|].
    destruct (Z.lt_ge_cases j ((llen lines + linesPerChunk - 1) / linesPerChunk)) as [Hlt|];
      [|lia].
    apply (window_count linesPerChunk (llen lines) j ltac:(lia) Hj) in Hlt. lia.
Qed.

Lemma chunkCountOf_ok (line : string) (lines : list string) :
  chunkCountOf (line :: lines)
  = Ok ((llen (line :: lines) + linesPerChunkOf (line :: lines) - 1)
        / linesPerChunkOf (line :: lines)).
Proof.
  pose proof (linesPerChunkOf_bounds line lines) as Hlpc.
  unfold chunkCountOf, int_div.
  destruct (Z.eqb_spec (linesPerChunkOf (line :: lines)) 0); [lia|].
  rewrite Z.quot_div_nonneg; [reflexivity| |lia]. unfold llen. lia.
Qed.

Lemma runChunks_emitted (line : string) (lines : list string) :
  totalLen (line :: lines) + llen (line :: lines) < 2 ^ 63 ->
  exists st,
    runChunks service (line :: lines) = (st, Ok tt) /\
    emitted st
    = map (expectedChunk (line :: lines) (linesPerChunkOf (line :: lines)))
        (windowNumbers (line :: lines)).
Proof.
  intros Hfits. pose proof (linesPerChunkOf_bounds line lines) as Hlpc.
  unfold runChunks. rewrite (chunkCountOf_ok line lines). cbn [guarded].
  set (filtered := line :: lines) in *.
  destruct (processChunks_shape filtered (linesPerChunkOf filtered)
              ((llen filtered + linesPerChunkOf filtered - 1) / linesPerChunkOf filtered)
              Hlpc Hfits (S (length filtered)) 0 start
              ltac:(lia) ltac:(lia) ltac:(unfold llen; lia)) as [st [Hrun Hem]].
  exists st. split; [exact Hrun|]. rewrite Hem. unfold windowNumbers.
  cbn [start emitted app]. now rewrite Z.sub_0_r.
Qed.

End ChunkSequence.

(** The chunks of successive windows, as a list of lines. *)
Lemma expected_chunks_step (lines : list string) (linesPerChunk j : Z) (n : nat) :
  seqZ j (Z.of_nat (S n)) = j :: seqZ (j + 1) (Z.of_nat n).
Proof.
  rewrite seqZ_cons by lia. f_equal. f_equal; lia.
Qed.

Lemma expectedChunk_length (lines : list string) (linesPerChunk j : Z) :
  1 <= linesPerChunk <= 30 -> totalLen lines + llen lines < 2 ^ 63 ->
  0 <= j -> j * linesPerChunk < llen lines ->
  let size := chunkSizeAt lines linesPerChunk (j * linesPerChunk) in
  llen (expectedChunk lines linesPerChunk j) = size /\
  1 <= size <= Z.min linesPerChunk (llen lines - j * linesPerChunk) /\
  (shrinksAt lines linesPerChunk (j * linesPerChunk) = true ->
   size < Z.min linesPerChunk (llen lines - j * linesPerChunk)) /\
  (shrinksAt lines linesPerChunk (j * linesPerChunk) = false ->
   size = Z.min linesPerChunk (llen lines - j * linesPerChunk)).
Proof.
  intros Hlpc Hfits Hj Hlt size.
  destruct (chunkAt_shape lines linesPerChunk (j * linesPerChunk) Hlpc ltac:(lia)
              (window_estimate_int lines linesPerChunk (j * linesPerChunk) Hfits))
    as [_ [Hsize [Hshrunk Hwhole]]].
  rewrite windowAt_length in * by lia. fold size in Hsize, Hshrunk, Hwhole.
  split; [|split; [exact Hsize|split; assumption]].
  unfold expectedChunk, llen in *. fold size. rewrite length_take, length_drop. lia.
Qed.

Lemma expected_chunks_sublist (lines : list string) (linesPerChunk : Z) :
  1 <= linesPerChunk <= 30 -> totalLen lines + llen lines < 2 ^ 63 ->
  forall (n : nat) (j : Z),
    0 <= j -> j + Z.of_nat n <= (llen lines + linesPerChunk - 1) / linesPerChunk ->
    let chunks := map (expectedChunk lines linesPerChunk) (seqZ j (Z.of_nat n)) in
    sublist (concat chunks) (drop (Z.to_nat (j * linesPerChunk)) lines) /\
    Forall (fun chunkLines => 1 <= llen chunkLines <= linesPerChunk) chunks.
Proof.
  intros Hlpc Hfits. induction n as [|n IH]; intros j Hj Hn chunks; subst chunks.
  - cbn. split; [apply sublist_nil_l|constructor].
  - rewrite (expected_chunks_step lines linesPerChunk). cbn [map concat].
    assert (Hlt : j * linesPerChunk < llen lines).
    { apply window_count; lia. }
    destruct (expectedChunk_length lines linesPerChunk j Hlpc Hfits Hj Hlt)
      as [Hlen [Hsize _]].
    destruct (IH (j + 1) ltac:(lia) ltac:(lia)) as [Hsub Hall]. split.
    + set (d := drop (Z.to_nat (j * linesPerChunk)) lines).
      set (s := Z.to_nat (chunkSizeAt lines linesPerChunk (j * linesPerChunk))).
      transitivity (take s d ++ drop s d)%list; [|now rewrite take_drop].
      apply sublist_app; [reflexivity|].
      transitivity (drop (Z.to_nat ((j + 1) * linesPerChunk)) lines); [exact Hsub|].
      replace (drop (Z.to_nat ((j + 1) * linesPerChunk)) lines)
        with (drop (Z.to_nat linesPerChunk - s) (drop s d)); [apply sublist_drop|].
      subst d. rewrite !drop_drop. f_equal. subst s. lia.
    + constructor; [lia|exact Hall].
Qed.

(** When no window that is left shrinks, the chunks are the lines that are
    left. *)
Lemma expected_chunks_cover (lines : list string) (linesPerChunk : Z) :
  1 <= linesPerChunk <= 30 -> totalLen lines + llen lines < 2 ^ 63 ->
  forall (n : nat) (j : Z),
    0 <= j -> j + Z.of_nat n = (llen lines + linesPerChunk - 1) / linesPerChunk ->
    forallb (fun j' => negb (shrinksAt lines linesPerChunk (j' * linesPerChunk)))
      (seqZ j (Z.of_nat n)) = true ->
    concat (map (expectedChunk lines linesPerChunk) (seqZ j (Z.of_nat n)))
    = drop (Z.to_nat (j * linesPerChunk)) lines.
Proof.
  intros Hlpc Hfits. induction n as [|n IH]; intros j Hj Hn Hnone.
  - cbn. rewrite drop_ge; [reflexivity|].
    destruct (Z.lt_ge_cases (j * linesPerChunk) (llen lines)) as [Hlt|Hge].
    + apply window_count in Hlt; lia.
    + unfold llen in Hge. lia.
  - rewrite (expected_chunks_step lines linesPerChunk) in *. cbn [map concat forallb] in *.
    apply andb_true_iff in Hnone. destruct Hnone as [Hhere Hrest].
    apply negb_true_iff in Hhere.
    assert (Hlt : j * linesPerChunk < llen lines).
    { apply window_count; lia. }
    destruct (expectedChunk_length lines linesPerChunk j Hlpc Hfits Hj Hlt)
      as [_ [_ [_ Hwhole]]].
    specialize (Hwhole Hhere).
    rewrite (IH (j + 1) ltac:(lia) ltac:(lia) Hrest).
    unfold expectedChunk. rewrite Hwhole.
    set (d := drop (Z.to_nat (j * linesPerChunk)) lines).
    assert (Hd : llen d = llen lines - j * linesPerChunk).
    { subst d. unfold llen. rewrite length_drop. unfold llen in Hlt. lia. }
    replace (drop (Z.to_nat ((j + 1) * linesPerChunk)) lines)
      with (drop (Z.to_nat linesPerChunk) d)
      by (subst d; rewrite drop_drop; f_equal; lia).
    destruct (Z.le_gt_cases linesPerChunk (llen lines - j * linesPerChunk)) as [Hfull|Hlast].
    + rewrite Z.min_l by lia. apply take_drop.
    + rewrite Z.min_r by lia. unfold llen in *.
      rewrite take_ge, drop_ge by lia. apply app_nil_r.
Qed.

(** When a window that is left shrinks, fewer lines are sent than are
    left. *)
Lemma expected_chunks_lose (lines : list string) (linesPerChunk : Z) :
  1 <= linesPerChunk <= 30 -> totalLen lines + llen lines < 2 ^ 63 ->
  forall (n : nat) (j : Z),
    0 <= j -> j + Z.of_nat n <= (llen lines + linesPerChunk - 1) / linesPerChunk ->
    existsb (fun j' => shrinksAt lines linesPerChunk (j' * linesPerChunk))
      (seqZ j (Z.of_nat n)) = true ->
    llen (concat (map (expectedChunk lines linesPerChunk) (seqZ j (Z.of_nat n))))
    < llen lines - j * linesPerChunk.
Proof.
  intros Hlpc Hfits. induction n as [|n IH]; intros j Hj Hn Hsome.
  - discriminate.
  - rewrite (expected_chunks_step lines linesPerChunk) in *. cbn [map concat existsb] in *.
    assert (Hlt : j * linesPerChunk < llen lines).
    { apply window_count; lia. }
    destruct (expectedChunk_length lines linesPerChunk j Hlpc Hfits Hj Hlt)
      as [Hlen [Hsize [Hshrunk _]]].
    destruct (expected_chunks_sublist lines linesPerChunk Hlpc Hfits n (j + 1)
                ltac:(lia) ltac:(lia)) as [Hsub _].
    apply sublist_length in Hsub. rewrite length_drop in Hsub.
    unfold llen in *. rewrite length_app.
    apply orb_true_iff in Hsome. destruct Hsome as [Hhere|Hlater].
    + specialize (Hshrunk Hhere). lia.
    + specialize (IH (j + 1) ltac:(lia) ltac:(lia) Hlater). lia.
Qed.

Lemma forallb_negb_existsb {A : Type} (f : A -> bool) (l : list A) :
  existsb f l = false -> forallb (fun a => negb (f a)) l = true.
Proof.
  induction l as [|a l IH]; [reflexivity|]. cbn [existsb forallb].
  intros Hnone. apply orb_false_iff in Hnone. destruct Hnone as [-> Hrest].
  now rewrite IH.
Qed.

Lemma windowNumbers_nat (lines : list string) :
  1 <= linesPerChunkOf lines ->
  windowNumbers lines
  = seqZ 0 (Z.of_nat (Z.to_nat ((llen lines + linesPerChunkOf lines - 1)
                                / linesPerChunkOf lines))).
Proof.
  intros Hlpc. unfold windowNumbers. rewrite Z2Nat.id; [reflexivity|].
  apply Z.div_pos; unfold llen; lia.
Qed.

(** X1.  The shrink step for every window of a run (up to 30 lines, the
    last and shorter one included): the float64 computation yields the
    integer quotient n * 1500 / estimate, except for 22 lines estimated at
    2200 tokens and 26 lines estimated at 2600 tokens, where it yields 14
    and not 15.  The result is below the size of the window, and the chunk
    is the first so many lines of the window, or its first line when the
    result is 0. *)
Theorem shrink_size_of_any_window (lines : list string) (linesPerChunk i : Z) :
  let window := windowAt lines linesPerChunk i in
  let estimated := estimateTokens (Join window nl) in
  let n := llen window in
  1 <= linesPerChunk <= 30 -> 0 <= i < llen lines ->
  maxTokensPerChunk < estimated < 2 ^ 63 ->
  n = Z.min linesPerChunk (llen lines - i) /\
  reducedSize n estimated
  = n * maxTokensPerChunk / estimated - (if roundedDown n estimated then 1 else 0) /\
  0 <= reducedSize n estimated <= n - 1 /\
  chunkAt lines linesPerChunk i
  = Ok (take (Z.to_nat (Z.max 1 (reducedSize n estimated))) window).
Proof.
  intros window estimated n Hlpc Hi Hest.
  pose proof (windowAt_length lines linesPerChunk i ltac:(lia) Hi) as Hn. fold window n in Hn.
  pose proof (reducedSize_any n estimated ltac:(lia) Hest) as Hred.
  assert (Hq : 0 <= n * maxTokensPerChunk / estimated <= n - 1).
  { unfold maxTokensPerChunk in *. split; [apply Z.div_pos; lia|].
    assert (n * 1500 / estimated < n) by (apply Z.div_lt_upper_bound; nia). lia. }
  assert (Hbounds : 0 <= reducedSize n estimated <= n - 1).
  { rewrite Hred. unfold roundedDown.
    destruct (Z.eqb_spec n 22) as [H22|]; destruct (Z.eqb_spec estimated 2200) as [H2200|];
      destruct (Z.eqb_spec n 26) as [H26|]; destruct (Z.eqb_spec estimated 2600) as [H2600|];
      cbn [andb orb]; try lia.
    - rewrite H22, H2200. vm_compute. split; discriminate.
    - rewrite H26, H2600. vm_compute. split; discriminate. }
  split; [exact Hn|]. split; [exact Hred|]. split; [exact Hbounds|].
  destruct (chunkAt_shape lines linesPerChunk i Hlpc Hi ltac:(fold window estimated; lia))
    as [-> _].
  f_equal.
  assert (Hsize : chunkSizeAt lines linesPerChunk i = Z.max 1 (reducedSize n estimated)).
  { unfold chunkSizeAt. cbv zeta. fold window. fold estimated. fold n.
    destruct (Z.gtb_spec estimated maxTokensPerChunk); [|lia]. now rewrite <- Hred. }
  rewrite Hsize.
  assert (Hwindow : window = take (Z.to_nat linesPerChunk) (drop (Z.to_nat i) lines))
    by reflexivity.
  rewrite Hwindow, take_take. f_equal. lia.
Qed.

Lemma shrink_size_of_any_window_witness :
  reducedSize 22 2200 = 22 * maxTokensPerChunk / 2200 - 1 /\
  chunkAt roundedLines 22 0 = Ok (take 14 roundedLines).
Proof.
  refine (let H := shrink_size_of_any_window roundedLines 22 0 _ _ _ in
          conj (proj1 (proj2 H)) (proj2 (proj2 (proj2 H)))).
  - lia.
  - vm_compute. split; [discriminate|reflexivity].
  - split; vm_compute; reflexivity.
Defined.

(** X2.  A run over at least one kept line sends as many chunks as the
    chunk count announces in the labels, writes one checkpoint per chunk and
    records one result per chunk, as a successful analysis or as an
    error. *)
Theorem one_result_and_checkpoint_per_chunk
    (service : nat -> string -> reply) (line : string) (lines : list string) :
  exists st chunkCount,
    runChunks service (line :: lines) = (st, Ok tt) /\
    chunkCountOf (line :: lines) = Ok chunkCount /\
    1 <= chunkCount /\
    llen (emitted st) = chunkCount /\
    llen (written st) = chunkCount /\
    llen (successfulAnalyses st) + llen (errorMessages st) = chunkCount.
Proof.
  pose proof (linesPerChunkOf_bounds line lines) as Hlpc.
  set (filtered := line :: lines) in *.
  set (chunkCount := (llen filtered + linesPerChunkOf filtered - 1) / linesPerChunkOf filtered).
  assert (Hcount : 1 <= chunkCount).
  { subst chunkCount. apply Z.div_le_lower_bound; [lia|].
    subst filtered. unfold llen. cbn [length]. lia. }
  destruct (processChunks_counts service filtered (linesPerChunkOf filtered) chunkCount
              ltac:(lia) (S (length filtered)) 0 start
              ltac:(lia) ltac:(lia) ltac:(unfold llen; lia))
    as [st [Hrun [Hem [Hwr Hres]]]].
  exists st, chunkCount. split.
  - unfold runChunks. subst filtered. rewrite (chunkCountOf_ok line lines).
    cbn [guarded]. exact Hrun.
  - split; [apply chunkCountOf_ok|]. split; [exact Hcount|].
    fold chunkCount in Hem, Hwr, Hres. cbn [start emitted written successfulAnalyses
      errorMessages] in Hem, Hwr, Hres.
    change (llen (@nil (list string))) with 0 in Hem.
    change (llen (@nil string)) with 0 in Hwr, Hres. lia.
Qed.

(** X3.  The chunks of a run, in closed form: one chunk per window of
    linesPerChunk lines, in order, each the first lines of its window - all
    of them when the window is estimated within the ceiling, and the shrunk
    number otherwise.  (The kept lines fit into memory: their bytes and
    their count stay below 2^63.) *)
Theorem run_sends_a_prefix_of_every_window
    (service : nat -> string -> reply) (now line : string) (lines : list string) :
  totalLen (line :: lines) + llen (line :: lines) < 2 ^ 63 ->
  chunksOf service now (line :: lines)
  = Some (map (expectedChunk (line :: lines) (linesPerChunkOf (line :: lines)))
            (windowNumbers (line :: lines))).
Proof.
  intros Hfits. rewrite chunksOf_runChunks.
  destruct (runChunks_emitted service line lines Hfits) as [st [-> Hem]].
  now rewrite Hem.
Qed.

Lemma run_sends_a_prefix_of_every_window_witness :
  chunksOf (fun _ _ => SendFailed "") "" twoLongLines = Some [[rep (Z.to_nat 4000) "a"]].
Proof.
  refine (run_sends_a_prefix_of_every_window (fun _ _ => SendFailed "") ""
            (rep (Z.to_nat 4000) "a") [rep (Z.to_nat 4000) "b"] _).
  vm_compute. reflexivity.
Defined.

(** X4.  No line is sent twice or out of order: the chunks of a run, one
    after the other, are a subsequence of the kept lines, and every chunk
    has at least one line and at most linesPerChunk (at most 30) lines. *)
Theorem chunks_are_disjoint_and_in_order
    (service : nat -> string -> reply) (now line : string) (lines : list string) :
  totalLen (line :: lines) + llen (line :: lines) < 2 ^ 63 ->
  exists chunks,
    chunksOf service now (line :: lines) = Some chunks /\
    sublist (concat chunks) (line :: lines) /\
    Forall (fun chunkLines => 1 <= llen chunkLines <= linesPerChunkOf (line :: lines)) chunks /\
    linesPerChunkOf (line :: lines) <= 30.
Proof.
  intros Hfits. pose proof (linesPerChunkOf_bounds line lines) as Hlpc.
  rewrite chunksOf_runChunks.
  destruct (runChunks_emitted service line lines Hfits) as [st [-> Hem]].
  eexists. split; [reflexivity|]. rewrite Hem.
  rewrite windowNumbers_nat by lia.
  destruct (expected_chunks_sublist (line :: lines) (linesPerChunkOf (line :: lines))
              Hlpc Hfits
              (Z.to_nat ((llen (line :: lines) + linesPerChunkOf (line :: lines) - 1)
                         / linesPerChunkOf (line :: lines))) 0 ltac:(lia))
    as [Hsub Hall].
  { rewrite Z2Nat.id; [lia|]. apply Z.div_pos; unfold llen; lia. }
  split; [exact Hsub|]. split; [exact Hall|lia].
Qed.

Lemma chunks_are_disjoint_and_in_order_witness :
  exists chunks,
    chunksOf (fun _ _ => SendFailed "") "" twoLongLines = Some chunks /\
    sublist (concat chunks) twoLongLines /\
    Forall (fun chunkLines => 1 <= llen chunkLines <= linesPerChunkOf twoLongLines) chunks /\
    linesPerChunkOf twoLongLines <= 30.
Proof.
  refine (chunks_are_disjoint_and_in_order (fun _ _ => SendFailed "") ""
            (rep (Z.to_nat 4000) "a") [rep (Z.to_nat 4000) "b"] _).
  vm_compute. reflexivity.
Defined.

(** X5.  Lines are lost exactly when a window of two or more lines is
    shrunk: if no window of the run is, the chunks are the kept lines, all
    of them and in order; if one is, the chunks hold fewer lines than were
    kept, because the loop moves on by linesPerChunk whatever the shrink
    left out. *)
Theorem lines_are_lost_iff_a_window_shrinks
    (service : nat -> string -> reply) (now line : string) (lines : list string) :
  totalLen (line :: lines) + llen (line :: lines) < 2 ^ 63 ->
  exists chunks,
    chunksOf service now (line :: lines) = Some chunks /\
    (anyShrink (line :: lines) = false -> concat chunks = line :: lines) /\
    (anyShrink (line :: lines) = true -> llen (concat chunks) < llen (line :: lines)).
Proof.
  intros Hfits. pose proof (linesPerChunkOf_bounds line lines) as Hlpc.
  rewrite chunksOf_runChunks.
  destruct (runChunks_emitted service line lines Hfits) as [st [-> Hem]].
  eexists. split; [reflexivity|]. rewrite Hem. unfold anyShrink.
  rewrite windowNumbers_nat by lia.
  set (filtered := line :: lines) in *.
  set (count := Z.to_nat ((llen filtered + linesPerChunkOf filtered - 1)
                          / linesPerChunkOf filtered)).
  assert (Hcount : 0 + Z.of_nat count
                   = (llen filtered + linesPerChunkOf filtered - 1) / linesPerChunkOf filtered).
  { subst count. rewrite Z2Nat.id; [lia|]. apply Z.div_pos; unfold llen; lia. }
  split.
  - intros Hnone. apply forallb_negb_existsb in Hnone.
    rewrite (expected_chunks_cover filtered (linesPerChunkOf filtered) Hlpc Hfits
               count 0 ltac:(lia) Hcount Hnone).
    reflexivity.
  - intros Hsome.
    pose proof (expected_chunks_lose filtered (linesPerChunkOf filtered) Hlpc Hfits
                  count 0 ltac:(lia) ltac:(lia) Hsome) as Hlose.
    lia.
Qed.

Lemma lines_are_lost_iff_a_window_shrinks_witness :
  exists chunks,
    chunksOf (fun _ _ => SendFailed "") "" twoLongLines = Some chunks /\
    (anyShrink twoLongLines = false -> concat chunks = twoLongLines) /\
    (anyShrink twoLongLines = true -> llen (concat chunks) < llen twoLongLines).
Proof.
  refine (lines_are_lost_iff_a_window_shrinks (fun _ _ => SendFailed "") ""
            (rep (Z.to_nat 4000) "a") [rep (Z.to_nat 4000) "b"] _).
  vm_compute. reflexivity.
Defined.

(** ** Responses of the completion endpoint *)

(** X6.  A decoded response counts as an error exactly when its [error]
    field is an object or a string, whatever else it holds: the message is
    the string itself, or the [message] field of the object when that is a
    string and "Unknown error" otherwise.  An [error] field of any other
    kind (null, a number, a list) is ignored. *)
Theorem error_field_decides_failure (result : gmap string json) (chunkLabel : string) :
  (snd (processReply (Decoded result) chunkLabel) = true <->
   (exists errorObj, result !! "error" = Some (JObject errorObj)) \/
   (exists errorStr, result !! "error" = Some (JString errorStr))) /\
  (forall errorObj, result !! "error" = Some (JObject errorObj) ->
     processReply (Decoded result) chunkLabel
     = ("Error from AI service: " +:+
        match errorObj !! "message" with
        | Some (JString msg) => msg
        | _ => "Unknown error"
        end, true)) /\
  (forall errorStr, result !! "error" = Some (JString errorStr) ->
     processReply (Decoded result) chunkLabel
     = ("Error from AI service: " +:+ errorStr, true)).
Proof.
  cbn [processReply]. unfold parseResponse, serviceError.
  destruct (result !! "error") as [[| | | errorStr | |errorObj]|] eqn:Herr;
    cbn [asObject asString snd]; (split; [split|split]);
    try discriminate; try (intros [[? [=]]|[? [=]]]; fail);
    try (intros ? [=]; fail).
  - intros _. right. now exists errorStr.
  - reflexivity.
  - intros ? [= <-]. reflexivity.
  - intros _. left. now exists errorObj.
  - reflexivity.
  - intros ? [= <-].
    destruct (errorObj !! "message") as [[| | | msg | |]|]; reflexivity.
Qed.

(** X7.  The text taken from a response is the content of its first
    choice: [firstContent] finds a content exactly when [choices] is a
    list whose first element is an object with an object [message] holding a
    string [content].  Later choices are never looked at, and in every other
    shape a response without an error is still a success, carrying the
    placeholder of the analyzer. *)
Theorem content_comes_from_first_choice (result : gmap string json) :
  (forall content,
     firstContent result = Some content <->
     exists choice rest message,
       result !! "choices" = Some (JArray (JObject choice :: rest)) /\
       choice !! "message" = Some (JObject message) /\
       message !! "content" = Some (JString content)) /\
  (forall chunkLabel content,
     serviceError result = None -> firstContent result = Some content ->
     processReply (Decoded result) chunkLabel
     = ("=== " +:+ chunkLabel +:+ " ===" +:+ nl +:+ nl +:+ content, false)) /\
  (forall chunkLabel,
     serviceError result = None -> firstContent result = None ->
     processReply (Decoded result) chunkLabel
     = ("=== " +:+ chunkLabel +:+ " ===" +:+ nl +:+ nl +:+
        "No analysis received for " +:+ chunkLabel +:+ ".", false)).
Proof.
  split; [|split].
  - intros content. unfold firstContent. split.
    + destruct (result !! "choices") as [[| | | |[|[| | | | |choice] rest]|]|];
        cbn [asArray asObject]; try discriminate.
      destruct (choice !! "message") as [[| | | | |message]|] eqn:Hmsg;
        cbn [asObject]; try discriminate.
      destruct (message !! "content") as [[| | |text| |]|] eqn:Hcontent;
        cbn [asString]; try discriminate.
      intros [= <-]. now exists choice, rest, message.
    + intros [choice [rest [message [-> [Hmsg Hcontent]]]]].
      cbn [asArray asObject]. rewrite Hmsg. cbn [asObject]. now rewrite Hcontent.
  - intros chunkLabel content Herr Hcontent. cbn [processReply].
    unfold parseResponse, extractAnalysis. now rewrite Herr, Hcontent.
  - intros chunkLabel Herr Hcontent. cbn [processReply].
    unfold parseResponse, extractAnalysis. now rewrite Herr, Hcontent.
Qed.

(** ** The enhancer: what is sent and what is written *)

(** The loop of lines 39-44 only ever drops a prefix, of at most as many
    bytes as it may look at. *)
Lemma dropFirstLine_drops (budget i : nat) (s : string) :
  exists m, (m <= i + budget)%nat /\ dropFirstLine budget i s = string_drop m s.
Proof.
  revert i. induction budget as [|budget IH]; intros i.
  - exists 0%nat. split; [lia|]. now destruct s.
  - cbn [dropFirstLine]. destruct (String.get i s) as [c|].
    + destruct (Ascii.eqb c newline).
      * exists (i + 1)%nat. split; [lia|reflexivity].
      * destruct (IH (i + 1)%nat) as [m [Hm ->]]. exists m. split; [lia|reflexivity].
    + exists 0%nat. split; [lia|]. now destruct s.
Qed.

Lemma string_drop_drop (a b : nat) (s : string) :
  string_drop a (string_drop b s) = string_drop (b + a) s.
Proof.
  revert s. induction b as [|b IH]; intros s; [reflexivity|].
  destruct s as [|c s]; [now destruct a|]. cbn [string_drop Nat.add]. apply IH.
Qed.

(** X8.  What the enhancer sends is always a suffix of the report it read,
    of at most 100000 bytes; a report that had to be cut still contributes
    at least 99000 bytes, and cutting again changes nothing. *)
Theorem truncated_summary_is_a_bounded_suffix (summaryData : string) :
  (exists dropped, summaryData = dropped +:+ truncateSummary summaryData) /\
  len (truncateSummary summaryData) <= 100000 /\
  (100000 < len summaryData -> 99000 <= len (truncateSummary summaryData)) /\
  truncateSummary (truncateSummary summaryData) = truncateSummary summaryData.
Proof.
  assert (Hcut : exists m,
            truncateSummary summaryData = string_drop m summaryData /\
            (len summaryData <= 100000 -> m = 0%nat) /\
            (100000 < len summaryData ->
             len summaryData - 100000 <= Z.of_nat m <= len summaryData - 99000)).
  { unfold truncateSummary. destruct (Z.gtb_spec (len summaryData) 100000) as [Hbig|Hsmall].
    - destruct (dropFirstLine_drops 1000 0
                  (string_drop (Z.to_nat (len summaryData - 100000)) summaryData))
        as [m [Hm ->]].
      rewrite string_drop_drop. eexists. split; [reflexivity|]. split; lia.
    - exists 0%nat. split; [now destruct summaryData|]. split; lia. }
  destruct Hcut as [m [Hres [Hsmall Hbig]]].
  assert (Hlen : len (truncateSummary summaryData) <= 100000 /\
                 (100000 < len summaryData -> 99000 <= len (truncateSummary summaryData))).
  { rewrite Hres. unfold len in *. rewrite string_drop_length.
    destruct (Z.le_gt_cases (Z.of_nat (String.length summaryData)) 100000) as [Hs|Hb].
    - rewrite (Hsmall Hs). lia.
    - specialize (Hbig Hb). lia. }
  split; [|split; [apply Hlen|split; [apply Hlen|]]].
  - exists (string_take m summaryData). rewrite Hres. symmetry. apply take_drop_s.
  - unfold truncateSummary at 1.
    destruct (Z.gtb_spec (len (truncateSummary summaryData)) 100000); [lia|reflexivity].
Qed.


(** ** The reports *)

(** A bounded loop of [compileFinalSummary] writes a prefix of its items,
    the longest one that stays within the ceiling, and the note when items
    are left. *)
Lemma boundedAppend_prefix (ceiling : Z) (what after : string) (n : Z)
    (items : list string) :
  forall (idx totalChars : Z),
    exists k : nat,
      (k <= length items)%nat /\
      boundedAppend ceiling what after n idx items totalChars
      = (written_in_order (map (fun item => item +:+ after) (take k items)) +:+
         (if (k <? length items)%nat
          then truncationNote (n - (idx + Z.of_nat k)) what
          else ""),
         totalChars + totalLen (take k items)) /\
      ((k < length items)%nat -> ceiling < totalChars + totalLen (take (S k) items)) /\
      (totalChars <= ceiling -> totalChars + totalLen (take k items) <= ceiling).
Proof.
  induction items as [|item rest IH]; intros idx totalChars.
  - exists 0%nat. cbn [length boundedAppend take map written_in_order fold_right totalLen].
    change (0 <? 0)%nat with false. cbv iota. rewrite app_nil_l_s, Z.add_0_r.
    split; [lia|]. split; [reflexivity|]. split; [lia|lia].
  - cbn [boundedAppend].
    destruct (Z.gtb_spec (totalChars + len item) ceiling) as [Hover|Hfits].
    + exists 0%nat. rewrite take_0.
      cbn [length map written_in_order fold_right totalLen].
      change (0 <? S (length rest))%nat with true. cbv iota.
      rewrite app_nil_l_s, !Z.add_0_r. split; [lia|]. split; [reflexivity|].
      split; [|lia]. intros _. rewrite firstn_cons, take_0, totalLen_cons.
      cbn [totalLen fold_right]. lia.
    + destruct (IH (idx + 1) (totalChars + len item)) as [k [Hk [-> [Hnext Hwithin]]]].
      exists (S k). cbn [length]. split; [lia|]. split; [|split].
      * rewrite firstn_cons, map_cons, written_in_order_cons, totalLen_cons.
        change (S k <? S (length rest))%nat with (k <? length rest)%nat.
        replace (idx + Z.of_nat (S k)) with (idx + 1 + Z.of_nat k) by lia.
        now rewrite !app_assoc_s, Z.add_assoc.
      * intros Hlt. rewrite firstn_cons, totalLen_cons.
        specialize (Hnext ltac:(lia)). lia.
      * intros _. rewrite firstn_cons, totalLen_cons.
        specialize (Hwithin Hfits). lia.
Qed.

(** X10.  The final report always holds a prefix of the analyses and a
    prefix of the errors, in their order and with nothing left out in
    between.  The two prefixes share one budget: together they have at most
    maxCharsPerSummary characters (headers, separators and notes are not
    counted), and each is the longest that the budget allows.  A section
    ends with a truncation note exactly when items of it are left, and the
    note cites their number. *)
Theorem final_report_holds_prefixes_within_ceiling
    (now : string) (analyses errors : list string) :
  exists i k : nat,
    (i <= length analyses)%nat /\ (k <= length errors)%nat /\
    compileFinalSummary now analyses errors
    = reportHeader now analyses errors +:+
      "## DETAILED FINDINGS" +:+ nl +:+ nl +:+
      (written_in_order (map (fun analysis => analysis +:+ separator) (take i analyses)) +:+
       (if (i <? length analyses)%nat
        then truncationNote (llen analyses - Z.of_nat i) "analyses"
        else "")) +:+
      (if 0 <? llen errors
       then nl +:+ nl +:+ "## ERRORS" +:+ nl +:+ nl +:+
            (written_in_order (map (fun err => err +:+ nl +:+ nl) (take k errors)) +:+
             (if (k <? length errors)%nat
              then truncationNote (llen errors - Z.of_nat k) "errors"
              else ""))
       else "") /\
    totalLen (take i analyses) + totalLen (take k errors) <= maxCharsPerSummary /\
    ((i < length analyses)%nat -> maxCharsPerSummary < totalLen (take (S i) analyses)) /\
    ((k < length errors)%nat ->
     maxCharsPerSummary < totalLen (take i analyses) + totalLen (take (S k) errors)).
Proof.
  unfold compileFinalSummary, compileFinalSummaryWith, errorSection.
  destruct (boundedAppend_prefix maxCharsPerSummary "analyses" separator (llen analyses)
              analyses 0 0) as [i [Hi [-> [Hnext Hwithin]]]].
  cbn [fst snd].
  destruct (boundedAppend_prefix maxCharsPerSummary "errors" (nl +:+ nl) (llen errors)
              errors 0 (0 + totalLen (take i analyses))) as [k [Hk [-> [Hnext' Hwithin']]]].
  cbn [fst]. rewrite !Z.add_0_l in *.
  exists i, k. split; [exact Hi|]. split; [exact Hk|]. split; [reflexivity|].
  assert (Hmax : 0 <= maxCharsPerSummary) by (unfold maxCharsPerSummary; lia).
  split; [|split; assumption].
  apply Hwithin'. apply Hwithin. exact Hmax.
Qed.

Lemma written_in_order_app (a b : list string) :
  written_in_order (a ++ b)%list = written_in_order a +:+ written_in_order b.
Proof.
  induction a as [|x a IH]; [now rewrite app_nil_l_s|].
  change ((x :: a) ++ b)%list with (x :: (a ++ b))%list.
  now rewrite !written_in_order_cons, IH, app_assoc_s.
Qed.

Lemma written_contains (after x : string) (items : list string) :
  In x items ->
  exists a b,
    written_in_order (map (fun item => item +:+ after) items) = a +:+ x +:+ b.
Proof.
  intros Hin. apply in_split in Hin. destruct Hin as [l1 [l2 ->]].
  rewrite map_app, written_in_order_app, map_cons, written_in_order_cons.
  eexists _, _. rewrite app_assoc_s. reflexivity.
Qed.

(** X11.  A checkpoint is never truncated: every analysis and every error
    recorded so far is part of the text [saveProgress] writes.  With nothing
    recorded it writes the empty text. *)
Theorem checkpoint_holds_every_result (analyses errors : list string) :
  Forall (fun text => Contains (saveProgress analyses errors) text = true)
    (analyses ++ errors)%list /\
  saveProgress [] [] = "".
Proof.
  split; [|reflexivity].
  apply Forall_forall. intros text Hin. apply list_elem_of_In in Hin.
  apply Contains_spec. unfold saveProgress. apply in_app_or in Hin.
  destruct Hin as [Hin|Hin].
  - destruct analyses as [|a rest]; [contradiction|].
    change (0 <? llen (a :: rest)) with true. cbv iota.
    destruct (written_contains separator text (a :: rest) Hin) as [before [after ->]].
    match goal with |- context [if ?c then ?t else ""] => set (errorPart := if c then t else "") end.
    exists ("## SUCCESSFUL ANALYSES" +:+ nl +:+ nl +:+ before), (after +:+ errorPart).
    rewrite !app_assoc_s. reflexivity.
  - destruct errors as [|e rest]; [contradiction|].
    change (0 <? llen (e :: rest)) with true. cbv iota.
    destruct (written_contains (nl +:+ nl) text (e :: rest) Hin) as [before [after ->]].
    match goal with |- context [if ?c then ?t else ""] => set (analysisPart := if c then t else "") end.
    exists (analysisPart +:+ nl +:+ nl +:+ "## ERRORS" +:+ nl +:+ nl +:+ before), after.
    rewrite !app_assoc_s. reflexivity.
Qed.
